(* ===================================================================== *)
(*  casters-tool: the frontend modules (api.js, cache.js, app.js) as a   *)
(*  shallow embedding, and the properties of the specification.          *)
(*                                                                       *)
(*  Layout: JavaScript values; the promise/exception monad; the          *)
(*  IndexedDB-backed EventCache; the REST client API; the controller     *)
(*  functions of app.js (navigation, rankings sort, playoff renderers);  *)
(*  then the theorems, grouped by module.                                *)
(* ===================================================================== *)

From stdpp Require Import gmap strings list fin_maps pretty sorting.
From Stdlib Require Import ZArith Lia Ascii.

Local Open Scope string_scope.
Local Open Scope list_scope.
Local Open Scope Z_scope.
#[local] Set Warnings "-register-all".

(* --------------------------------------------------------------------- *)
(*  JavaScript values                                                    *)
(* --------------------------------------------------------------------- *)

(** The values that cross the module boundaries are the ones JSON and the
    structured clone carry.  Numbers are the integral ones.  An object is
    the finite map of its own properties; an array is the object of its
    indices.  Property names are ordinary data-property names. *)
Inductive value : Type :=
  | VUndefined
  | VNull
  | VBool (b : bool)
  | VNum (n : Z)
  | VStr (s : string)
  | VObj (fields : gmap string value).

(** ToBoolean. *)
Definition truthy (v : value) : bool :=
  match v with
  | VUndefined | VNull => false
  | VBool b => b
  | VNum n => negb (n =? 0)
  | VStr s => negb (String.eqb s "")
  | VObj _ => true
  end.

(** null or undefined. *)
Definition nullish (v : value) : bool :=
  match v with VUndefined | VNull => true | _ => false end.

(** [a || b]. *)
Definition js_or (a b : value) : value := if truthy a then a else b.

(** Exceptions that the modelled code can raise or receive. *)
Inductive exn : Type :=
  | Error (arg : value)           (* new Error(arg): the message is ToString(arg),
                                     arg itself when arg is a string *)
  | TypeError                     (* property access on null or undefined, failed fetch *)
  | SyntaxError                   (* Response.json() on a body that is not JSON *)
  | DOMException.                 (* IndexedDB request or transaction error *)

(** How a promise settles. *)
Inductive outcome (A : Type) : Type :=
  | Resolved (a : A)
  | Rejected (e : exn).
Arguments Resolved {A} a.
Arguments Rejected {A} e.

(** [v?.p]: undefined on null and undefined, the property otherwise.  The
    primitives have none of the properties read here. *)
Definition opt_prop (v : value) (p : string) : value :=
  match v with
  | VObj o => default VUndefined (o !! p)
  | _ => VUndefined
  end.

(** [v.p]: as [v?.p], but a TypeError on null and undefined. *)
Definition get_prop (v : value) (p : string) : outcome value :=
  match v with
  | VUndefined | VNull => Rejected TypeError
  | _ => Resolved (opt_prop v p)
  end.

(** Does [o[p] = x] write an own property of the plain object [o]?  It
    does for every name but '__proto__': that name is an accessor of
    Object.prototype, whose setter replaces the prototype when [x] is an
    object or null and does nothing otherwise, and the structured clone
    that stores the object keeps own properties only.  An object that
    has '__proto__' as an own property (JSON.parse makes such objects)
    is written like any other. *)
Definition writes_own (o : gmap string value) (p : string) : bool :=
  negb (String.eqb p "__proto__") || bool_decide (is_Some (o !! p)).

(** The own properties of the plain object [o] after [o[p] = x]. *)
Definition assign (o : gmap string value) (p : string) (x : value) : gmap string value :=
  if writes_own o p then <[p := x]> o else o.

(** [v[p] = x] in sloppy mode: a TypeError on null and undefined, silently
    dropped on the other primitives, [assign] on a plain object. *)
Definition set_prop (v : value) (p : string) (x : value) : outcome value :=
  match v with
  | VUndefined | VNull => Rejected TypeError
  | VObj o => Resolved (VObj (assign o p x))
  | _ => Resolved v
  end.

(* --------------------------------------------------------------------- *)
(*  Asynchronous computations                                            *)
(* --------------------------------------------------------------------- *)

(** An asynchronous computation over a world [W], run to its settlement:
    [x ← p; k] is [const x = await p; k]. *)
Definition Async (W A : Type) : Type := W → W * outcome A.

#[export] Instance Async_ret {W} : MRet (Async W) := λ A a w, (w, Resolved a).
#[export] Instance Async_bind {W} : MBind (Async W) := λ A B f m w,
  match m w with
  | (w', Resolved a) => f a w'
  | (w', Rejected e) => (w', Rejected e)
  end.

Definition throw {W A} (e : exn) : Async W A := λ w, (w, Rejected e).
Definition lift {W A} (o : outcome A) : Async W A := λ w, (w, o).

(** [p.catch(() => a)]. *)
Definition catch {W A} (p : Async W A) (a : A) : Async W A :=
  λ w, match p w with
       | (w', Rejected _) => (w', Resolved a)
       | r => r
       end.

(** What the body of a try block hands to its async function: a value
    (also the value of [return await p]), or a promise returned without
    await.  The function's own promise adopts a returned promise after
    the try block is left, so its rejection reaches the caller and not
    the catch clause. *)
Inductive completion (W A : Type) : Type :=
  | Return (a : A)
  | ReturnPromise (p : Async W A).
Arguments Return {W A} a.
Arguments ReturnPromise {W A} p.

(** [async function () { try { body } catch { handler } }]. *)
Definition try_catch {W A} (body : Async W (completion W A)) (handler : Async W A) : Async W A :=
  λ w, match body w with
       | (w', Resolved (Return a)) => (w', Resolved a)
       | (w', Resolved (ReturnPromise p)) => p w'
       | (w', Rejected _) => handler w'
       end.

(* --------------------------------------------------------------------- *)
(*  cache.js                                                             *)
(* --------------------------------------------------------------------- *)

Module EventCache.

(** A row of the object store 'events' (keyPath 'event_key'). *)
Record record : Type := Record_ {
  event_key : string;
  saved_at : Z;
  data : value;
}.

(** The browser as cache.js sees it: the rows of the object store, the
    clock behind Date.now(), and for each coming IndexedDB step (an
    indexedDB.open, a transaction) whether it will fail.  No entry
    means no failure. *)
Record world : Type := World {
  db_store : gmap string record;
  clock : Z;
  failures : list bool;
}.

Definition IO (A : Type) : Type := Async world A.

(** The next IndexedDB step: does it fail? *)
Definition next_failure : IO bool := λ w,
  match failures w with
  | [] => (w, Resolved false)
  | b :: fs => (World (db_store w) (clock w) fs, Resolved b)
  end.

Definition Date_now : IO Z := λ w, (w, Resolved (clock w)).

(** A step that can fail: on failure the request or transaction errors
    (or the call throws inside the promise executor), the promise
    rejects and the store is as before. *)
Definition step {A} (run : world → world * A) : IO A :=
  failed ← next_failure;
  if failed : bool then throw DOMException
  else λ w, let '(w', a) := run w in (w', Resolved a).

Definition with_store (f : gmap string record → gmap string record) (w : world) : world :=
  World (f (db_store w)) (clock w) (failures w).

(** indexedDB.open(DB_NAME, DB_VERSION), resolved on success and rejected
    on error.  The object store exists from the first upgrade on. *)
Definition open : IO unit := step (λ w, (w, tt)).

(** [tx.objectStore(STORE).get(eventKey)], resolving [req.result || null]. *)
Definition store_get (eventKey : string) : IO (option record) :=
  step (λ w, (w, db_store w !! eventKey)).

(** [tx.objectStore(STORE).put(row)], resolving true on completion. *)
Definition store_put (row : record) : IO bool :=
  step (λ w, (with_store (<[event_key row := row]>) w, true)).

(** [tx.objectStore(STORE).delete(eventKey)]. *)
Definition store_delete (eventKey : string) : IO bool :=
  step (λ w, (with_store (delete eventKey) w, true)).

(** [tx.objectStore(STORE).clear()]. *)
Definition store_clear : IO bool :=
  step (λ w, (with_store (λ _, ∅) w, true)).

(** [tx.objectStore(STORE).getAll()], the rows in ascending key order. *)
Definition key_le (a b : record) : Prop := String.leb (event_key a) (event_key b).
#[export] Instance key_le_dec a b : Decision (key_le a b) := _.

Definition store_getAll : IO (list record) :=
  step (λ w, (w, merge_sort key_le (map_to_list (db_store w)).*2)).

Definition get (eventKey : string) : IO (option record) :=
  try_catch
    (_ ← open;
     mret (ReturnPromise (store_get eventKey)))
    (mret None).

Definition put (eventKey : string) (data : value) : IO bool :=
  try_catch
    (_ ← open;
     mret (ReturnPromise
             (now ← Date_now;
              store_put (Record_ eventKey now data))))
    (mret false).

(** Update a single tab's data in the cached entry. *)
Definition patchTab (eventKey tabName : string) (tabData : value) : IO bool :=
  try_catch
    (existing ← get eventKey;
     match existing with
     | None => mret (Return false)
     | Some existing =>
         data' ← lift (set_prop (data existing) tabName tabData);
         now ← Date_now;
         let existing := Record_ (event_key existing) now data' in
         r ← put eventKey (data existing);
         mret (Return r)
     end)
    (mret false).

(** patchTab from its first await on: the rest of the function once
    [await get(eventKey)] has settled with [got]. *)
Definition patchTab_resume (eventKey tabName : string) (tabData : value)
    (got : outcome (option record)) : IO bool :=
  try_catch
    (existing ← lift got;
     match existing with
     | None => mret (Return false)
     | Some existing =>
         data' ← lift (set_prop (data existing) tabName tabData);
         now ← Date_now;
         let existing := Record_ (event_key existing) now data' in
         r ← put eventKey (data existing);
         mret (Return r)
     end)
    (mret false).

(** [patchTab(k, tab1, x1); patchTab(k, tab2, x2)] with neither call
    awaited before the next starts, as two calls of autoCacheTab in a
    row make them (app.js, after the teams are loaded).  Each call runs
    up to its [await get(eventKey)] at once.  The two reads are in
    readonly transactions on connections that were requested before
    either put asks for its own, so both reads are done before the
    first readwrite transaction exists; the continuations then write,
    the call named by [second_first] first. *)
Definition patchTab_unawaited (eventKey tab1 : string) (x1 : value) (tab2 : string) (x2 : value)
    (second_first : bool) : world → world * (outcome bool * outcome bool) :=
  λ w,
    let '(wa, got1) := get eventKey w in
    let '(wb, got2) := get eventKey wa in
    if second_first then
      let '(wc, r2) := patchTab_resume eventKey tab2 x2 got2 wb in
      let '(wd, r1) := patchTab_resume eventKey tab1 x1 got1 wc in
      (wd, (r1, r2))
    else
      let '(wc, r1) := patchTab_resume eventKey tab1 x1 got1 wb in
      let '(wd, r2) := patchTab_resume eventKey tab2 x2 got2 wc in
      (wd, (r1, r2)).

Definition remove (eventKey : string) : IO bool :=
  try_catch
    (_ ← open;
     mret (ReturnPromise (store_delete eventKey)))
    (mret false).

(** An item of the saved-events list. *)
Record summary : Type := Summary {
  s_event_key : string;
  s_saved_at : Z;
  s_name : value;
  s_status : value;
  s_year : value;
}.

Definition summarize (r : record) : summary :=
  let info := opt_prop (data r) "info" in
  Summary (event_key r) (saved_at r)
          (js_or (opt_prop info "name") (VStr (event_key r)))
          (js_or (opt_prop info "status") (VStr ""))
          (js_or (opt_prop info "year") (VStr "")).

Definition list : IO (Datatypes.list summary) :=
  try_catch
    (_ ← open;
     mret (ReturnPromise (rows ← store_getAll; mret (summarize <$> rows))))
    (mret []).

Definition clear : IO bool :=
  try_catch
    (_ ← open;
     mret (ReturnPromise store_clear))
    (mret false).

(** No IndexedDB step of the world is going to fail. *)
Definition calm (w : world) : bool := forallb negb (failures w).

(** The world when the clock has moved on to [t]: time passes between
    one operation and the next. *)
Definition at_time (t : Z) (w : world) : world := World (db_store w) t (failures w).

(** Every row of the store sits under its own event_key (the keyPath). *)
Definition keyed (w : world) : Prop :=
  ∀ k r, db_store w !! k = Some r → event_key r = k.

(** Sample worlds: an empty store, and the store after one snapshot was
    saved, both at the same time and with nothing going to fail. *)
Definition w_empty : world := World ∅ 1700000000000 [].
Definition snapshot : value :=
  VObj {[ "info" := VObj {[ "name" := VStr "Bosphorus Regional" ]}; "teams" := VNull ]}.
Definition w_saved : world :=
  World {[ "2026tuis" := Record_ "2026tuis" 1700000000000 snapshot ]} 1700000000000 [].

End EventCache.

(* --------------------------------------------------------------------- *)
(*  api.js (frontend/js/api.js)                                          *)
(* --------------------------------------------------------------------- *)

Module API.

Inductive http_method : Type := GET | POST | DELETE.

(** The arguments of a call of fetch.  [req_body] is the value whose JSON
    text is sent. *)
Record request : Type := Request {
  method : http_method;
  url : string;
  headers : list (string * string);
  req_body : option value;
}.

(** A Response: its status and what [resp.json()] parses from its body,
    [None] for a body that is not JSON. *)
Record response : Type := Response {
  status : Z;
  json_body : option value;
}.

(** [resp.ok]: the status is in the range 200-299. *)
Definition ok (resp : response) : bool := (200 <=? status resp) && (status resp <=? 299).

(** The backend as api.js sees it: the requests sent so far, and what
    fetch settles to for a request (a rejection is a network failure). *)
Record net : Type := Net {
  sent : list request;
  server : request → outcome response;
}.

Definition fetch (req : request) : Async net response :=
  λ n, (Net (sent n ++ [req]) (server n), server n req).

(** [resp.json()]. *)
Definition json (resp : response) : Async net value :=
  match json_body resp with
  | Some v => mret v
  | None => throw SyntaxError
  end.

(** [`HTTP ${resp.status}`], the fallback message. *)
Definition http_status (resp : response) : value := VStr ("HTTP " +:+ pretty (status resp)).

(** What get does with the response of fetch. *)
Definition settle (resp : response) : Async net value :=
  if negb (ok resp) then
    body ← catch (json resp) (VObj ∅);
    detail ← lift (get_prop body "detail");
    throw (Error (js_or detail (http_status resp)))
  else json resp.

(** [fetch(`/api${path}`)]: a GET without headers or body. *)
Definition get_request (path : string) : request := Request GET ("/api" +:+ path) [] None.

Definition get (path : string) : Async net value :=
  resp ← fetch (get_request path);
  settle resp.

(** The arguments of the fetch of post: headers and body only for a
    truthy body. *)
Definition post_request (path : string) (body : value) : request :=
  Request POST ("/api" +:+ path)
    (if truthy body then [("Content-Type", "application/json")] else [])
    (if truthy body then Some body else None).

Definition post (path : string) (body : value) : Async net value :=
  resp ← fetch (post_request path body);
  if negb (ok resp) then
    b ← catch (json resp) (VObj ∅);
    detail ← lift (get_prop b "detail");
    throw (Error (js_or detail (http_status resp)))
  else json resp.

Definition del_request (path : string) : request := Request DELETE ("/api" +:+ path) [] None.

Definition del (path : string) : Async net value :=
  resp ← fetch (del_request path);
  if negb (ok resp) then
    b ← catch (json resp) (VObj ∅);
    detail ← lift (get_prop b "detail");
    throw (Error (js_or detail (http_status resp)))
  else json resp.

(** The endpoint wrappers.  An argument that a template literal renders
    is given as the string it renders to; an argument that is only tested
    for truth is a bool, and [year] is [None] when it is falsy. *)
Section Endpoints.
Variable encodeURIComponent : string → string.

Definition flag (b : bool) : string := if b then "true" else "false".

(* Events *)
Definition seasonEvents (yr : string) := get ("/events/season/" +:+ yr).
Definition eventInfo (ek : string) := get ("/events/" +:+ ek +:+ "/info").
Definition eventTeams (ek : string) := get ("/events/" +:+ ek +:+ "/teams").
Definition eventSummary (ek : string) := get ("/events/" +:+ ek +:+ "/summary").
Definition eventSummaryRefresh (ek : string) :=
  get ("/events/" +:+ ek +:+ "/summary/refresh-stats").
Definition eventConnections (ek : string) (allTime : bool) :=
  get ("/events/" +:+ ek +:+ "/summary/connections?all_time=" +:+ flag allTime).
Definition clearCache (ek : string) := get ("/events/" +:+ ek +:+ "/clear-cache").
Definition refreshRankings (ek : string) := get ("/events/" +:+ ek +:+ "/refresh-rankings").

(* Matches *)
Definition playoffMatches (ek : string) := get ("/matches/" +:+ ek +:+ "/playoffs").
Definition allMatches (ek : string) := get ("/matches/" +:+ ek +:+ "/all").
Definition matchBreakdown (mk : string) := get ("/matches/match/" +:+ mk +:+ "/breakdown").
Definition teamPerf (ek num : string) := get ("/matches/team-perf/" +:+ ek +:+ "/" +:+ num).

(* Alliances *)
Definition alliances (ek : string) := get ("/alliances/" +:+ ek).

(* Teams *)
Definition teamStats (num : string) (year : option string) :=
  get ("/teams/" +:+ num +:+ "/stats" +:+
       match year with Some y => "?year=" +:+ y | None => "" end).
Definition headToHead (a b : string) (year : option string) (allTime : bool) :=
  get ("/teams/head-to-head/" +:+ a +:+ "/" +:+ b +:+
       match year with Some y => "?year=" +:+ y +:+ "&" | None => "?" end +:+
       "all_time=" +:+ flag allTime).

(* Compare *)
Definition compareTeams (ek : string) (teamKeys : list string) :=
  get ("/events/" +:+ ek +:+ "/compare?teams=" +:+ String.concat "," teamKeys).

(* Region / Event History *)
Definition regionFacts (name : string) :=
  get ("/events/region/" +:+ encodeURIComponent name +:+ "/facts").
Definition regionsList := get "/events/regions/list".
Definition eventHistory (ek : string) := get ("/events/" +:+ ek +:+ "/history").

(* Saved Events *)
Definition savedList := get "/events/saved/list".
Definition saveEvent (ek : string) (data : value) := post ("/events/" +:+ ek +:+ "/save") data.
Definition loadSaved (ek : string) := get ("/events/" +:+ ek +:+ "/saved").
Definition deleteSaved (ek : string) := del ("/events/" +:+ ek +:+ "/saved").

(** A call of one of the operations of the module. *)
Inductive call : Type :=
  | CGet (path : string)
  | CPost (path : string) (body : value)
  | CDel (path : string)
  | CSeasonEvents (yr : string)
  | CEventInfo (ek : string)
  | CEventTeams (ek : string)
  | CEventSummary (ek : string)
  | CEventSummaryRefresh (ek : string)
  | CEventConnections (ek : string) (allTime : bool)
  | CClearCache (ek : string)
  | CRefreshRankings (ek : string)
  | CPlayoffMatches (ek : string)
  | CAllMatches (ek : string)
  | CMatchBreakdown (mk : string)
  | CTeamPerf (ek num : string)
  | CAlliances (ek : string)
  | CTeamStats (num : string) (year : option string)
  | CHeadToHead (a b : string) (year : option string) (allTime : bool)
  | CCompareTeams (ek : string) (teamKeys : list string)
  | CRegionFacts (name : string)
  | CRegionsList
  | CEventHistory (ek : string)
  | CSavedList
  | CSaveEvent (ek : string) (data : value)
  | CLoadSaved (ek : string)
  | CDeleteSaved (ek : string).

Definition run (c : call) : Async net value :=
  match c with
  | CGet path => get path
  | CPost path body => post path body
  | CDel path => del path
  | CSeasonEvents yr => seasonEvents yr
  | CEventInfo ek => eventInfo ek
  | CEventTeams ek => eventTeams ek
  | CEventSummary ek => eventSummary ek
  | CEventSummaryRefresh ek => eventSummaryRefresh ek
  | CEventConnections ek allTime => eventConnections ek allTime
  | CClearCache ek => clearCache ek
  | CRefreshRankings ek => refreshRankings ek
  | CPlayoffMatches ek => playoffMatches ek
  | CAllMatches ek => allMatches ek
  | CMatchBreakdown mk => matchBreakdown mk
  | CTeamPerf ek num => teamPerf ek num
  | CAlliances ek => alliances ek
  | CTeamStats num year => teamStats num year
  | CHeadToHead a b year allTime => headToHead a b year allTime
  | CCompareTeams ek teamKeys => compareTeams ek teamKeys
  | CRegionFacts name => regionFacts name
  | CRegionsList => regionsList
  | CEventHistory ek => eventHistory ek
  | CSavedList => savedList
  | CSaveEvent ek data => saveEvent ek data
  | CLoadSaved ek => loadSaved ek
  | CDeleteSaved ek => deleteSaved ek
  end.

(** The operations that go through [API.get]: all but post, del and the
    two saved-event operations built on them. *)
Definition reads (c : call) : bool :=
  match c with
  | CPost _ _ | CDel _ | CSaveEvent _ _ | CDeleteSaved _ => false
  | _ => true
  end.

End Endpoints.

(** The HTTP method behind each operation. *)
Definition method_of (c : call) : http_method :=
  match c with
  | CPost _ _ | CSaveEvent _ _ => POST
  | CDel _ | CDeleteSaved _ => DELETE
  | _ => GET
  end.

(** A backend that answers every request with the same response. *)
Definition answering (resp : response) : net := Net [] (λ _, Resolved resp).

Definition not_found : response :=
  Response 404 (Some (VObj {[ "detail" := VStr "Event not found" ]})).

End API.

(* --------------------------------------------------------------------- *)
(*  api.js (docs/js/api.js)                                              *)
(* --------------------------------------------------------------------- *)

(** The API object of the docs frontend.  Its [get] is the [get] above,
    and it has no post and no del. *)
Module DocsAPI.

Section Endpoints.
Variable encodeURIComponent : string → string.

(* Events *)
Definition seasonEvents (yr : string) (includeOffseason : bool) :=
  API.get ("/events/season/" +:+ yr +:+
           (if includeOffseason then "?include_offseason=true" else "")).
Definition eventInfo (ek : string) := API.get ("/events/" +:+ ek +:+ "/info").
Definition eventTeams (ek : string) := API.get ("/events/" +:+ ek +:+ "/teams").
Definition eventSummary (ek : string) := API.get ("/events/" +:+ ek +:+ "/summary").
Definition eventSummaryRefresh (ek : string) :=
  API.get ("/events/" +:+ ek +:+ "/summary/refresh-stats").
Definition eventSummaryAwards (ek : string) :=
  API.get ("/events/" +:+ ek +:+ "/summary/awards").
(** [teams] is the empty list when the argument is missing. *)
Definition eventConnections (ek : string) (allTime : bool) (teams : list string) :=
  let url := "/events/" +:+ ek +:+ "/summary/connections?all_time=" +:+ API.flag allTime in
  let url := match teams with
             | [] => url
             | _ => url +:+ "&teams=" +:+ String.concat "," teams
             end in
  API.get url.
Definition clearCache (ek : string) := API.get ("/events/" +:+ ek +:+ "/clear-cache").
Definition refreshRankings (ek : string) :=
  API.get ("/events/" +:+ ek +:+ "/refresh-rankings").

(* Matches *)
Definition playoffMatches (ek : string) := API.get ("/matches/" +:+ ek +:+ "/playoffs").
Definition allMatches (ek : string) := API.get ("/matches/" +:+ ek +:+ "/all").
Definition matchBreakdown (mk : string) :=
  API.get ("/matches/match/" +:+ mk +:+ "/breakdown").
Definition teamPerf (ek num : string) :=
  API.get ("/matches/team-perf/" +:+ ek +:+ "/" +:+ num).

(* Alliances *)
Definition alliances (ek : string) := API.get ("/alliances/" +:+ ek).

(* Teams *)
Definition teamStats (num : string) (year : option string) :=
  API.get ("/teams/" +:+ num +:+ "/stats" +:+
           match year with Some y => "?year=" +:+ y | None => "" end).
Definition teamAwardsSummary (teamNums : list string) :=
  API.get ("/teams/awards-summary?teams=" +:+ String.concat "," teamNums).
Definition headToHead (a b : string) (year : option string) (allTime : bool) :=
  API.get ("/teams/head-to-head/" +:+ a +:+ "/" +:+ b +:+
           match year with Some y => "?year=" +:+ y +:+ "&" | None => "?" end +:+
           "all_time=" +:+ API.flag allTime).

(* Compare *)
Definition compareTeams (ek : string) (teamKeys : list string) :=
  API.get ("/events/" +:+ ek +:+ "/compare?teams=" +:+ String.concat "," teamKeys).

(* Region / Event History *)
Definition regionFacts (name : string) :=
  API.get ("/events/region/" +:+ encodeURIComponent name +:+ "/facts").
Definition regionsList := API.get "/events/regions/list".
Definition eventHistory (ek : string) := API.get ("/events/" +:+ ek +:+ "/history").

(** A call of one of the operations of the module. *)
Inductive call : Type :=
  | CGet (path : string)
  | CSeasonEvents (yr : string) (includeOffseason : bool)
  | CEventInfo (ek : string)
  | CEventTeams (ek : string)
  | CEventSummary (ek : string)
  | CEventSummaryRefresh (ek : string)
  | CEventSummaryAwards (ek : string)
  | CEventConnections (ek : string) (allTime : bool) (teams : list string)
  | CClearCache (ek : string)
  | CRefreshRankings (ek : string)
  | CPlayoffMatches (ek : string)
  | CAllMatches (ek : string)
  | CMatchBreakdown (mk : string)
  | CTeamPerf (ek num : string)
  | CAlliances (ek : string)
  | CTeamStats (num : string) (year : option string)
  | CTeamAwardsSummary (teamNums : list string)
  | CHeadToHead (a b : string) (year : option string) (allTime : bool)
  | CCompareTeams (ek : string) (teamKeys : list string)
  | CRegionFacts (name : string)
  | CRegionsList
  | CEventHistory (ek : string).

Definition run (c : call) : Async API.net value :=
  match c with
  | CGet path => API.get path
  | CSeasonEvents yr includeOffseason => seasonEvents yr includeOffseason
  | CEventInfo ek => eventInfo ek
  | CEventTeams ek => eventTeams ek
  | CEventSummary ek => eventSummary ek
  | CEventSummaryRefresh ek => eventSummaryRefresh ek
  | CEventSummaryAwards ek => eventSummaryAwards ek
  | CEventConnections ek allTime teams => eventConnections ek allTime teams
  | CClearCache ek => clearCache ek
  | CRefreshRankings ek => refreshRankings ek
  | CPlayoffMatches ek => playoffMatches ek
  | CAllMatches ek => allMatches ek
  | CMatchBreakdown mk => matchBreakdown mk
  | CTeamPerf ek num => teamPerf ek num
  | CAlliances ek => alliances ek
  | CTeamStats num year => teamStats num year
  | CTeamAwardsSummary teamNums => teamAwardsSummary teamNums
  | CHeadToHead a b year allTime => headToHead a b year allTime
  | CCompareTeams ek teamKeys => compareTeams ek teamKeys
  | CRegionFacts name => regionFacts name
  | CRegionsList => regionsList
  | CEventHistory ek => eventHistory ek
  end.

End Endpoints.

End DocsAPI.

(* --------------------------------------------------------------------- *)
(*  app.js: the controller                                               *)
(* --------------------------------------------------------------------- *)

Module App.

(** A class attribute carries a class when it is one of its words. *)
Definition has_class (c cls : string) : bool := bool_decide (c ∈ String.words cls).

(* ---- Rankings (docs/js/app.js) ---- *)

(** A row of the teams list.  [rank] is [Some] when [typeof t.rank] is
    'number'; a text field that is absent is the empty string. *)
Record team : Type := Team {
  team_number : Z;
  rank : option Z;
  nickname : string;
  city : string;
  state_prov : string;
  country : string;
  wins : Z;
  losses : Z;
}.

(** The sort columns.  The columns opr, dpr and ccwm compare
    floating-point statistics and have no counterpart here; any other
    column name takes the default branch. *)
Inductive column : Type :=
  | ColRank | ColTeamNumber | ColNickname | ColLocation | ColRecord | ColOther.

Section Rankings.
(** String.prototype.toLowerCase and String.prototype.localeCompare. *)
Variable toLowerCase : string → string.
Variable localeCompare : string → string → Z.

Definition effective_rank (t : team) : Z := default 999 (rank t).

Definition location (t : team) : string :=
  toLowerCase
    (String.concat ", "
       (filter (λ s, s ≠ EmptyString) [city t; state_prov t; country t])).

(** The comparator that sortTeamsData passes to Array.prototype.sort. *)
Definition compare_teams (col : column) (asc : bool) (a b : team) : Z :=
  match col with
  | ColRank =>
      let va := effective_rank a in
      let vb := effective_rank b in
      if negb (va =? vb) then (if asc then va - vb else vb - va)
      else team_number a - team_number b
  | ColTeamNumber =>
      if asc then team_number a - team_number b else team_number b - team_number a
  | ColNickname =>
      let va := toLowerCase (nickname a) in
      let vb := toLowerCase (nickname b) in
      if asc then localeCompare va vb else localeCompare vb va
  | ColLocation =>
      let va := location a in
      let vb := location b in
      if asc then localeCompare va vb else localeCompare vb va
  | ColRecord =>
      let va := wins a - losses a in
      let vb := wins b - losses b in
      if negb (va =? vb) then (if asc then vb - va else va - vb)
      else if asc then wins b - wins a else wins a - wins b
  | ColOther => 0
  end.

(** Array.prototype.sort with a comparator: a stable sort, here by
    insertion.  [x] goes before the first [y] with [cmp x y <= 0]. *)
Fixpoint insert_by {A} (cmp : A → A → Z) (x : A) (l : list A) : list A :=
  match l with
  | [] => [x]
  | y :: l' => if cmp x y <=? 0 then x :: y :: l' else y :: insert_by cmp x l'
  end.

Definition sort_by {A} (cmp : A → A → Z) (l : list A) : list A :=
  foldr (insert_by cmp) [] l.

(** The order a comparator stands for: [a] may stand before [b]. *)
Definition before {A} (cmp : A → A → Z) (a b : A) : Prop := cmp a b <= 0.

(** The controller's state for the rankings table. *)
Record rankings : Type := Rankings {
  teamsData : option (list team);
  teamsSortCol : column;
  teamsSortAsc : bool;
}.

Definition sortTeamsData (st : rankings) : rankings :=
  match teamsData st with
  | None => st
  | Some ts =>
      Rankings (Some (sort_by (compare_teams (teamsSortCol st) (teamsSortAsc st)) ts))
               (teamsSortCol st) (teamsSortAsc st)
  end.

End Rankings.

(** A sample teams list: two ranked teams, two without a rank. *)
Definition sample_teams : list team :=
  [ Team 9020 (Some 2) "Team 9020" "Istanbul" "" "Türkiye" 8 2;
    Team 254 None "The Cheesy Poofs" "San Jose" "CA" "USA" 0 0;
    Team 1678 (Some 1) "Citrus Circuits" "Davis" "CA" "USA" 10 0;
    Team 118 None "Robonauts" "Houston" "TX" "USA" 0 0 ].

(* ---- Play by play and score breakdown navigation (unnamed/part_001) ---- *)

(** The matches data shared by the two tabs, the two current indices,
    and the value of each tab's match selector. *)
Record nav : Type := Nav {
  pbpData : option (list value);
  pbpIndex : Z;
  pbp_match_select : Z;
  bdData : option (list value);
  bdIndex : Z;
  bd_match_select : Z;
}.

(** [pbpData.matches.length]. *)
Definition matches_length (d : list value) : Z := Z.of_nat (length d).

(** renderPbpMatch, as far as the state goes: nothing without matches,
    else the selector follows the index. *)
Definition renderPbpMatch (st : nav) : nav :=
  match pbpData st with
  | None => st
  | Some d =>
      if matches_length d =? 0 then st
      else Nav (pbpData st) (pbpIndex st) (pbpIndex st) (bdData st) (bdIndex st) (bd_match_select st)
  end.

Definition set_pbp (i : Z) (st : nav) : nav :=
  Nav (pbpData st) i i (bdData st) (bdIndex st) (bd_match_select st).

(** [idx] is the integer that [parseInt(idx, 10)] reads. *)
Definition pbpGoTo (idx : Z) (st : nav) : nav :=
  renderPbpMatch (Nav (pbpData st) idx (pbp_match_select st) (bdData st) (bdIndex st) (bd_match_select st)).

Definition pbpPrev (st : nav) : nav :=
  if 0 <? pbpIndex st then renderPbpMatch (set_pbp (pbpIndex st - 1) st)
  else st.

Definition pbpNext (st : nav) : nav :=
  match pbpData st with
  | Some d =>
      if pbpIndex st <? matches_length d - 1
      then renderPbpMatch (set_pbp (pbpIndex st + 1) st)
      else st
  | None => st
  end.

(** loadBdMatch, as far as the state goes. *)
Definition loadBdMatch (st : nav) : nav :=
  match bdData st with
  | None => st
  | Some d =>
      if matches_length d =? 0 then st
      else Nav (pbpData st) (pbpIndex st) (pbp_match_select st) (bdData st) (bdIndex st) (bdIndex st)
  end.

Definition set_bd (i : Z) (st : nav) : nav :=
  Nav (pbpData st) (pbpIndex st) (pbp_match_select st) (bdData st) i i.

Definition bdGoTo (idx : Z) (st : nav) : nav :=
  loadBdMatch (Nav (pbpData st) (pbpIndex st) (pbp_match_select st) (bdData st) idx (bd_match_select st)).

Definition bdPrev (st : nav) : nav :=
  if 0 <? bdIndex st then loadBdMatch (set_bd (bdIndex st - 1) st)
  else st.

Definition bdNext (st : nav) : nav :=
  match bdData st with
  | Some d =>
      if bdIndex st <? matches_length d - 1
      then loadBdMatch (set_bd (bdIndex st + 1) st)
      else st
  | None => st
  end.

(** The bounds of an index into a list of matches. *)
Definition in_bounds (i : Z) (d : option (list value)) : Prop :=
  match d with
  | Some ms => 0 <= i <= matches_length ms - 1
  | None => False
  end.

(** The bounds of the two indices, each for a loaded, non-empty list. *)
Definition pbp_bounds (st : nav) : Prop := in_bounds (pbpIndex st) (pbpData st).
Definition bd_bounds (st : nav) : Prop := in_bounds (bdIndex st) (bdData st).

(** A sample state: three matches, play by play at the first and the
    breakdown at the last. *)
Definition three_matches : list value := [VObj ∅; VObj ∅; VObj ∅].
Definition at_first : nav := Nav (Some three_matches) 0 0 (Some three_matches) 2 2.

(* ---- Playoffs (renderAlliance: unnamed/part_001; bracket: docs/js/app.js) ---- *)

(** One side of a match.  [alliance_number] is 0 when absent;
    [team_names] and [team_countries] are empty when absent; [total_opr]
    is given as the template renders it. *)
Record alliance : Type := Alliance {
  team_numbers : list Z;
  team_names : list string;
  team_countries : list string;
  score : Z;
  alliance_number : Z;
  total_opr : string;
}.

(** A playoff match as the backend supplies it.  [winning_alliance] is
    the empty string when the field is null or absent. *)
Record playoff_match : Type := Match {
  bracket : string;
  set_number : Z;
  match_number : Z;
  winning_alliance : string;
  red : alliance;
  blue : alliance;
}.

Inductive color : Type := Red | Blue.

Definition color_name (c : color) : string :=
  match c with Red => "red" | Blue => "blue" end.

(** [m[color]]. *)
Definition side (c : color) (m : playoff_match) : alliance :=
  match c with Red => red m | Blue => blue m end.

(** The markup of a team badge, an alliance and a match card: each
    element with its class attribute as the template writes it. *)
Record badge : Type := Badge {
  badge_class : string;
  badge_country : string;
  badge_team : Z;
  badge_tooltip : option string;
}.

Record alliance_view : Type := AllianceView {
  al_class : string;
  al_badges : list badge;
  al_opr : string;
  al_score_class : string;
  al_score : string;
}.

Record card_view : Type := CardView {
  card_class : string;
  card_red : alliance_view;
  card_blue : alliance_view;
}.

Definition is_foreign (highlightForeign : bool) (country : string) : bool :=
  highlightForeign && negb (String.eqb country "")
  && negb (String.eqb country "Turkey")
  && negb (String.eqb country "Türkiye")
  && negb (String.eqb country "Turkiye").

Definition renderAlliance (highlightForeign : bool) (c : color) (m : playoff_match)
  : alliance_view :=
  let a := side c m in
  let won := String.eqb (winning_alliance m) (color_name c) in
  let badgeCls := match c with Red => "red-badge" | Blue => "blue-badge" end in
  AllianceView
    ("alliance " +:+ color_name c +:+ " " +:+ (if won then "winner" else ""))
    (imap (λ i tn,
       let name := default "" (team_names a !! i) in
       let country := default "" (team_countries a !! i) in
       let foreignCls := if is_foreign highlightForeign country then "foreign-team" else "" in
       if negb (String.eqb name "")
       then Badge ("team-badge " +:+ badgeCls +:+ " " +:+ foreignCls +:+ " has-tooltip")
                  country tn (Some name)
       else Badge ("team-badge " +:+ badgeCls +:+ " " +:+ foreignCls) country tn None)
      (team_numbers a))
    ("Σ OPR: " +:+ total_opr a)
    ("alliance-score " +:+ (if won then "winner-text" else ""))
    (if 0 <=? score a then pretty (score a) else "–").

Definition renderMatchCard (highlightForeign : bool) (m : playoff_match) : card_view :=
  let upcoming := (score (red m) <? 0) && (score (blue m) <? 0) in
  CardView ("match-card " +:+ (if upcoming then "upcoming" else ""))
           (renderAlliance highlightForeign Red m)
           (renderAlliance highlightForeign Blue m).

(** The slots of the bracket: the sets 1 to 13 and the final 'f'. *)
Inductive slot_id : Type := SetNum (n : Z) | Final.

(** Descriptions for each set; the empty string for any other key. *)
Definition SET_DESCRIPTIONS (s : slot_id) : string :=
  match s with
  | SetNum 1 => "#1 vs #8" | SetNum 2 => "#4 vs #5"
  | SetNum 3 => "#2 vs #7" | SetNum 4 => "#3 vs #6"
  | SetNum 5 => "L1 vs L2" | SetNum 6 => "L3 vs L4"
  | SetNum 7 => "W1 vs W2" | SetNum 8 => "W3 vs W4"
  | SetNum 9 => "W5 vs L8" | SetNum 10 => "W6 vs L7"
  | SetNum 11 => "W7 vs W8" | SetNum 12 => "W9 vs W10"
  | SetNum 13 => "W12 vs L11"
  | Final => "W11 vs W13"
  | SetNum _ => ""
  end.

(** The markup of a bracket slot. *)
Record team_span : Type := TeamSpan {
  span_team : Z;
  span_tooltip : option string;
}.

Record row_view : Type := RowView {
  row_class : string;
  row_seed : option Z;
  row_teams : list team_span;
  row_score : string;
}.

Inductive slot_view : Type :=
  | SlotTBD (label desc : string)
  | SlotMatch (cls label : string) (replay : option Z)
              (red_row blue_row : row_view) (desc : string).

(** What renderBracketTree writes into the playoff-bracket element: the
    empty message, or the tree with the rounds of the upper bracket, the
    grand final and the rounds of the lower bracket. *)
Inductive bracket_view : Type :=
  | NoPlayoffMatches
  | BracketTree (upper : list (list slot_view)) (final : slot_view)
                (lower : list (list slot_view)).

(** Index matches by set_number; keep latest replay per set. *)
Definition index_match (acc : gmap Z playoff_match * list playoff_match) (m : playoff_match)
  : gmap Z playoff_match * list playoff_match :=
  let '(bySet, finals) := acc in
  if String.eqb (bracket m) "final" then (bySet, finals ++ [m])
  else
    let s := set_number m in
    match bySet !! s with
    | None => (<[s := m]> bySet, finals)
    | Some old =>
        if match_number old <? match_number m then (<[s := m]> bySet, finals)
        else (bySet, finals)
    end.

Definition index_matches (playoffData : list playoff_match)
  : gmap Z playoff_match * list playoff_match :=
  fold_left index_match playoffData (∅, []).

(** [finals.length ? finals.reduce((a, b) => b.match_number > a.match_number ? b : a) : null]. *)
Definition grand_final (finals : list playoff_match) : option playoff_match :=
  match finals with
  | [] => None
  | f :: fs => Some (fold_left (λ a b, if match_number a <? match_number b then b else a) fs f)
  end.

(** The match that a slot shows, if any. *)
Definition slot_match (playoffData : list playoff_match) (s : slot_id) : option playoff_match :=
  let '(bySet, finals) := index_matches playoffData in
  match s with
  | Final => grand_final finals
  | SetNum n => bySet !! n
  end.

(** team_number -> nickname, from the loaded teamsData. *)
Definition nick_map (teamsData : option (list team)) : gmap Z string :=
  match teamsData with
  | None => ∅
  | Some ts =>
      fold_left (λ acc t, if negb (String.eqb (nickname t) "")
                          then <[team_number t := nickname t]> acc else acc) ts ∅
  end.

Definition teamSpan (nicks : gmap Z string) (num : Z) : team_span :=
  TeamSpan num (nicks !! num).

(** The markup of a slot that has a match. *)
Definition match_view (teamsData : option (list team)) (m : playoff_match)
    (label desc : string) : slot_view :=
  let redWon := String.eqb (winning_alliance m) "red" in
  let blueWon := String.eqb (winning_alliance m) "blue" in
  let upcoming := (score (red m) <? 0) && (score (blue m) <? 0) in
  let row (cls : string) (won : bool) (a : alliance) :=
    RowView ("bkt-row " +:+ cls +:+ " " +:+ (if won then "bkt-won" else ""))
            (if negb (alliance_number a =? 0) then Some (alliance_number a) else None)
            (teamSpan (nick_map teamsData) <$> team_numbers a)
            (if upcoming then "–" else pretty (score a)) in
  SlotMatch
    ("bkt-slot " +:+ (if upcoming then "bkt-upcoming" else "") +:+ " "
       +:+ (if redWon || blueWon then "bkt-decided" else ""))
    label
    (if 1 <? match_number m then Some (match_number m) else None)
    (row "bkt-red" redWon (red m))
    (row "bkt-blue" blueWon (blue m))
    desc.

Definition slot (teamsData : option (list team)) (playoffData : list playoff_match)
    (setNum : slot_id) (label : string) : slot_view :=
  let desc := SET_DESCRIPTIONS setNum in
  match slot_match playoffData setNum with
  | None => SlotTBD label desc
  | Some m => match_view teamsData m label desc
  end.

Definition renderBracketTree (teamsData : option (list team))
    (playoffData : option (list playoff_match)) : bracket_view :=
  match playoffData with
  | None | Some [] => NoPlayoffMatches
  | Some pd =>
      let slot := slot teamsData pd in
      BracketTree
        [ [slot (SetNum 1) "M1"; slot (SetNum 2) "M2"; slot (SetNum 3) "M3"; slot (SetNum 4) "M4"];
          [slot (SetNum 7) "M7"; slot (SetNum 8) "M8"];
          [slot (SetNum 11) "M11"] ]
        (slot Final "Final")
        [ [slot (SetNum 5) "M5"; slot (SetNum 6) "M6"];
          [slot (SetNum 9) "M9"; slot (SetNum 10) "M10"];
          [slot (SetNum 12) "M12"];
          [slot (SetNum 13) "M13"] ]
  end.

(** The slots of a rendered bracket, each with its header label. *)
Definition slot_label (v : slot_view) : string :=
  match v with
  | SlotTBD label _ => label
  | SlotMatch _ label _ _ _ _ => label
  end.

Definition slots (v : bracket_view) : list slot_view :=
  match v with
  | NoPlayoffMatches => []
  | BracketTree upper final lower => concat upper ++ [final] ++ concat lower
  end.

(** The fixed topology: which set each labelled slot of the tree stands for. *)
Definition topology : list (slot_id * string) :=
  [ (SetNum 1, "M1"); (SetNum 2, "M2"); (SetNum 3, "M3"); (SetNum 4, "M4");
    (SetNum 7, "M7"); (SetNum 8, "M8"); (SetNum 11, "M11");
    (Final, "Final");
    (SetNum 5, "M5"); (SetNum 6, "M6"); (SetNum 9, "M9"); (SetNum 10, "M10");
    (SetNum 12, "M12"); (SetNum 13, "M13") ].

(** Which matches compete for a slot: the matches of bracket 'final' for
    the grand final, the other matches of the set for a numbered slot. *)
Definition competes (s : slot_id) (m : playoff_match) : bool :=
  match s with
  | Final => String.eqb (bracket m) "final"
  | SetNum n => negb (String.eqb (bracket m) "final") && (set_number m =? n)
  end.

(** What a slot is to show. *)
(** [o] is the latest replay among the matches of [pd] that compete for
    the slot [s]: one of them with the greatest match_number, or nothing
    when none competes. *)
Definition latest_for (pd : list playoff_match) (s : slot_id)
    (o : option playoff_match) : Prop :=
  match o with
  | Some m =>
      m ∈ pd ∧ competes s m = true
      ∧ ∀ m', m' ∈ pd → competes s m' = true → match_number m' <= match_number m
  | None => ∀ m', m' ∈ pd → competes s m' = false
  end.

(** A match that red lost on points and won on the record: red is marked. *)
Definition upset : playoff_match :=
  Match "upper" 1 1 "red"
        (Alliance [9020; 254; 1678] [] [] 10 1 "101.5")
        (Alliance [118; 148; 2056] [] [] 50 8 "99.0").

(** A replayed first set and a three-match final.  The final matches
    carry set_number 1 as well and are kept out of slot M1 by their
    bracket. *)
Definition replayed : list playoff_match :=
  [ upset;
    Match "upper" 1 2 "blue"
          (Alliance [9020; 254; 1678] [] [] 40 1 "101.5")
          (Alliance [118; 148; 2056] [] [] 45 8 "99.0");
    Match "final" 1 1 "red"
          (Alliance [9020; 254; 1678] [] [] 70 1 "101.5")
          (Alliance [118; 148; 2056] [] [] 60 8 "99.0");
    Match "final" 1 2 "blue"
          (Alliance [9020; 254; 1678] [] [] 55 1 "101.5")
          (Alliance [118; 148; 2056] [] [] 60 8 "99.0");
    Match "final" 1 3 ""
          (Alliance [9020; 254; 1678] [] [] (-1) 1 "101.5")
          (Alliance [118; 148; 2056] [] [] (-1) 8 "99.0") ].

End App.

(* --------------------------------------------------------------------- *)
(*  app.js: more of the controller                                       *)
(* --------------------------------------------------------------------- *)

Module Controller.
Import App.

(* ---- Rankings: the column headers (docs/js/app.js) ---- *)

#[export] Instance column_eq_dec : EqDecision column.
Proof. solve_decision. Defined.

Section SortTeams.
Variable toLowerCase : string → string.
Variable localeCompare : string → string → Z.

(** buildTeamTable, as far as the state goes: the new list, sorted by the
    current column and direction. *)
Definition buildTeamTable (teams : list team) (st : rankings) : rankings :=
  sortTeamsData toLowerCase localeCompare
    (Rankings (Some teams) (teamsSortCol st) (teamsSortAsc st)).

(** sortTeams, as far as the state goes: a click on the header of [col]. *)
Definition sortTeams (col : column) (st : rankings) : rankings :=
  match teamsData st with
  | None => st
  | Some _ =>
      sortTeamsData toLowerCase localeCompare
        (if decide (teamsSortCol st = col)
         then Rankings (teamsData st) (teamsSortCol st) (negb (teamsSortAsc st))
         else Rankings (teamsData st) col true)
  end.

End SortTeams.

(* ---- The cache key of match connections (docs/js/app.js) ---- *)

(** [[...teamNums].sort((a, b) => a - b).join(',') + '|' + (allTime ? '1' : '0')]. *)
Definition _connCacheKey (teamNums : list Z) (allTime : bool) : string :=
  String.concat "," (pretty <$> sort_by (λ a b, a - b) teamNums)
  +:+ "|" +:+ (if allTime then "1" else "0").

(* ---- HTML escaping (docs/js/app.js) ---- *)

(** [s.replace(/c/g, r)] for a single character [c]. *)
Fixpoint replace_char (c : Ascii.ascii) (r : string) (s : string) : string :=
  match s with
  | EmptyString => EmptyString
  | String a s' =>
      (if Ascii.eqb a c then r else String a EmptyString) +:+ replace_char c r s'
  end.

(** [(s || '').replace(/&/g,'&amp;').replace(/</g,'&lt;').replace(/>/g,'&gt;')];
    [None] is a missing argument. *)
Definition _esc (s : option string) : string :=
  replace_char ">"%char "&gt;"
    (replace_char "<"%char "&lt;"
       (replace_char "&"%char "&amp;" (default "" s))).

(** One character, escaped. *)
Definition escape_char (a : Ascii.ascii) : string :=
  if Ascii.eqb a "&"%char then "&amp;"
  else if Ascii.eqb a "<"%char then "&lt;"
  else if Ascii.eqb a ">"%char then "&gt;"
  else String a EmptyString.

Fixpoint escape_chars (s : string) : string :=
  match s with
  | EmptyString => EmptyString
  | String a s' => escape_char a +:+ escape_chars s'
  end.

(** The character [c] occurs in [s]. *)
Fixpoint occurs (c : Ascii.ascii) (s : string) : bool :=
  match s with
  | EmptyString => false
  | String a s' => Ascii.eqb a c || occurs c s'
  end.

(* ---- Team comparison: the selection (docs/js/app.js) ---- *)

(** The Set compareSelection, in insertion order, and the compare bar:
    whether it is shown and the text of its count. *)
Record compare : Type := Compare {
  compareSelection : list string;
  compare_bar_shown : bool;
  compare_bar_count : string;
}.

(** [`${n} team${n > 1 ? 's' : ''} selected`]. *)
Definition count_text (n : Z) : string :=
  pretty n +:+ " team" +:+ (if 1 <? n then "s" else "") +:+ " selected".

Definition updateCompareBar (st : compare) : compare :=
  let n := Z.of_nat (length (compareSelection st)) in
  if 0 <? n
  then Compare (compareSelection st) true (count_text n)
  else Compare (compareSelection st) false (compare_bar_count st).

Definition toggleCompareTeam (teamKey : string) (st : compare) : compare :=
  if decide (teamKey ∈ compareSelection st)
  then updateCompareBar
         (Compare (filter (λ k, k ≠ teamKey) (compareSelection st))
                  (compare_bar_shown st) (compare_bar_count st))
  else if 6 <=? Z.of_nat (length (compareSelection st)) then st
  else updateCompareBar
         (Compare (compareSelection st ++ [teamKey])
                  (compare_bar_shown st) (compare_bar_count st)).

Definition clearCompareSelection (st : compare) : compare :=
  updateCompareBar (Compare [] (compare_bar_shown st) (compare_bar_count st)).

(** launchCompareFromSelection: the team keys that showComparison is
    called with, or nothing when the function returns at its guard. *)
Definition launchCompareFromSelection (currentEvent : option string) (st : compare)
  : option (list string) :=
  if (Z.of_nat (length (compareSelection st)) <? 2) || negb (bool_decide (is_Some currentEvent))
  then None
  else Some (compareSelection st).

(** What the selection keeps: no team twice, at most six teams, and the
    bar shown exactly when a team is selected, with the right count. *)
Definition selection_ok (st : compare) : Prop :=
  NoDup (compareSelection st) ∧ (length (compareSelection st) ≤ 6)%nat
  ∧ (compare_bar_shown st = true ↔ compareSelection st ≠ [])
  ∧ (compare_bar_shown st = true →
     compare_bar_count st = count_text (Z.of_nat (length (compareSelection st)))).

(* ---- Playoff match cards by round (unnamed/part_001) ---- *)

(** A match of the playoff list with its round field. *)
Record round_match : Type := RoundMatch {
  round : Z;
  fields : playoff_match;
}.

(** A series card: its title, the bracket tag, the alliance labels and
    the match card. *)
Record series_card : Type := SeriesCard {
  series_title : string;
  series_bracket : string;
  series_tag : string;
  series_red : string;
  series_blue : string;
  series_match : card_view;
}.

(** What renderPlayoffs and filterRound write: the round buttons (round
    and label, the first one active) and the content of playoff-matches. *)
Inductive matches_view : Type :=
  | NoMatchesFound
  | NoMatchesInBracket
  | Cards (cards : list series_card).

(** [m.round !== round] and the bracket test of filterRound. *)
Definition in_round (currentBracket : string) (r : Z) (m : round_match) : bool :=
  (round m =? r)
  && (String.eqb currentBracket "all" || String.eqb (bracket (fields m)) currentBracket).

(** [a.set_number - b.set_number || a.match_number - b.match_number]. *)
Definition compare_matches (a b : round_match) : Z :=
  let d := set_number (fields a) - set_number (fields b) in
  if negb (d =? 0) then d
  else match_number (fields a) - match_number (fields b).

Definition round_matches (currentBracket : string) (r : Z) (playoffData : list round_match)
  : list round_match :=
  sort_by compare_matches (filter (λ m, in_round currentBracket r m = true) playoffData).

Definition series (highlightForeign : bool) (m : round_match) : series_card :=
  let f := fields m in
  let label (a : alliance) :=
    if negb (alliance_number a =? 0) then "Alliance #" +:+ pretty (alliance_number a) else "" in
  SeriesCard
    ("Match " +:+ pretty (set_number f) +:+
     (if 1 <? match_number f then " (Replay " +:+ pretty (match_number f) +:+ ")" else ""))
    (bracket f)
    (if String.eqb (bracket f) "upper" then "▲ Upper"
     else if String.eqb (bracket f) "lower" then "▼ Lower"
     else if String.eqb (bracket f) "final" then "★ Final" else "")
    (label (red f)) (label (blue f))
    (renderMatchCard highlightForeign f).

Definition filterRound (highlightForeign : bool) (currentBracket : string) (r : Z)
    (playoffData : list round_match) : matches_view :=
  match round_matches currentBracket r playoffData with
  | [] => NoMatchesInBracket
  | ms => Cards (series highlightForeign <$> ms)
  end.

Definition roundOrder : list Z := [1; 2; 3; 4; 5; 0].

Definition roundLabels (r : Z) : string :=
  match r with
  | 1 => "Round 1" | 2 => "Round 2" | 3 => "Round 3" | 4 => "Round 4" | 5 => "Round 5"
  | 0 => "Grand Final"
  | _ => "undefined"
  end.

(** The matches of the current bracket. *)
Definition bracket_matches (currentBracket : string) (playoffData : list round_match)
  : list round_match :=
  if String.eqb currentBracket "all" then playoffData
  else filter (λ m, bracket (fields m) = currentBracket) playoffData.

Definition roundsPresent (currentBracket : string) (playoffData : list round_match) : list Z :=
  filter (λ r, existsb (λ m, round m =? r) (bracket_matches currentBracket playoffData) = true)
         roundOrder.

(** renderPlayoffs: the round buttons written into playoff-nav ([None]
    when it is left as it was), and the content of playoff-matches, the
    matches of the first round. *)
Definition renderPlayoffs (highlightForeign : bool) (currentBracket : string)
    (playoffData : option (list round_match))
  : option (list (Z * string)) * matches_view :=
  match playoffData with
  | None | Some [] => (None, NoMatchesFound)
  | Some pd =>
      let rounds := roundsPresent currentBracket pd in
      (Some ((λ r, (r, roundLabels r)) <$> rounds),
       match rounds with
       | r :: _ => filterRound highlightForeign currentBracket r pd
       | [] => NoMatchesInBracket
       end)
  end.

(** Sample data: a selection, and the rounds of a small playoff list. *)
Definition two_selected : compare :=
  Compare ["frc9020"; "frc254"] true "2 teams selected".

Definition some_rounds : list round_match :=
  [ RoundMatch 2 (Match "upper" 7 1 "red"
                    (Alliance [9020] [] [] 30 1 "1.0") (Alliance [254] [] [] 20 4 "1.0"));
    RoundMatch 1 (Match "upper" 2 1 "blue"
                    (Alliance [1678] [] [] 10 4 "1.0") (Alliance [118] [] [] 20 5 "1.0"));
    RoundMatch 1 (Match "upper" 1 2 "red"
                    (Alliance [9020] [] [] 30 1 "1.0") (Alliance [148] [] [] 20 8 "1.0"));
    RoundMatch 1 (Match "upper" 1 1 ""
                    (Alliance [9020] [] [] 20 1 "1.0") (Alliance [148] [] [] 20 8 "1.0")) ].

End Controller.

(* ===================================================================== *)
(*  Properties of cache.js                                               *)
(* ===================================================================== *)

Module EventCacheFacts.
Import EventCache.

(** Unfold an operation down to the failure schedule of the world. *)
Ltac unfold_io :=
  unfold get, put, remove, clear, EventCache.list, patchTab, try_catch,
    open, store_get, store_put, store_delete, store_clear, store_getAll,
    step, next_failure, Date_now, throw, lift, with_store,
    mbind, mret, Async_bind, Async_ret in *.

Ltac schedule w :=
  destruct w as [st now fs]; cbn [failures db_store clock calm] in *;
  destruct fs as [|[] [|[] fs]]; cbn in *.

(** ** A world in which nothing fails *)

Lemma get_calm k w :
  calm w = true →
  ∃ w', get k w = (w', Resolved (db_store w !! k))
        ∧ db_store w' = db_store w ∧ clock w' = clock w ∧ calm w' = true.
Proof.
  intros Hc. unfold_io. schedule w; try discriminate; eauto 10.
Qed.

Lemma put_calm k d w :
  calm w = true →
  ∃ w', put k d w = (w', Resolved true)
        ∧ db_store w' = <[k := Record_ k (clock w) d]> (db_store w)
        ∧ clock w' = clock w ∧ calm w' = true.
Proof.
  intros Hc. unfold_io. schedule w; try discriminate; eauto 10.
Qed.

Lemma remove_calm k w :
  calm w = true →
  ∃ w', remove k w = (w', Resolved true)
        ∧ db_store w' = delete k (db_store w)
        ∧ clock w' = clock w ∧ calm w' = true.
Proof.
  intros Hc. unfold_io. schedule w; try discriminate; eauto 10.
Qed.

Lemma clear_calm w :
  calm w = true →
  ∃ w', clear w = (w', Resolved true) ∧ db_store w' = ∅.
Proof.
  intros Hc. unfold_io. schedule w; try discriminate; eauto 10.
Qed.

(** ** What a successful write has done to the store *)

Lemma put_resolved k d w w' b :
  put k d w = (w', Resolved b) →
  (b = true ∧ db_store w' = <[k := Record_ k (clock w) d]> (db_store w) ∧ clock w' = clock w)
  ∨ (b = false ∧ db_store w' = db_store w).
Proof.
  unfold_io. schedule w; intros H; inversion H; subst; cbn; auto.
Qed.

Lemma remove_resolved k w w' b :
  remove k w = (w', Resolved b) →
  (b = true ∧ db_store w' = delete k (db_store w))
  ∨ (b = false ∧ db_store w' = db_store w).
Proof.
  unfold_io. schedule w; intros H; inversion H; subst; cbn; auto.
Qed.

(** ** put, then get *)

(** C2. After put(k, d) has resolved true, a get(k) that meets no storage
    failure resolves with a record whose event_key is k and whose data
    is d; its saved_at is the time of the put. *)
Theorem put_then_get (k : string) (d : value) (w w1 : world) :
  put k d w = (w1, Resolved true) →
  calm w1 = true →
  ∃ w2 r, get k w1 = (w2, Resolved (Some r))
          ∧ event_key r = k ∧ data r = d ∧ saved_at r = clock w.
Proof.
  intros Hput Hc.
  destruct (put_resolved _ _ _ _ _ Hput) as [(_ & Hst & _)|(? & _)]; [|done].
  destruct (get_calm k w1 Hc) as (w2 & Hget & _).
  exists w2, (Record_ k (clock w) d).
  rewrite Hget, Hst, lookup_insert_eq. done.
Qed.

Lemma put_then_get_witness :
  ∃ w2 r, get "2026tuis" w_saved = (w2, Resolved (Some r))
          ∧ event_key r = "2026tuis" ∧ data r = snapshot
          ∧ saved_at r = clock w_empty.
Proof.
  apply (put_then_get "2026tuis" snapshot w_empty w_saved); reflexivity.
Defined.

(** ** patchTab *)


Lemma assign_proto (o : gmap string value) x :
  o !! "__proto__" = None → assign o "__proto__" x = o.
Proof.
  intros Hnone. unfold assign, writes_own. cbn.
  rewrite bool_decide_eq_false_2; [done|]. rewrite Hnone. by intros [? ?].
Qed.

(** The store after a patchTab on an object, with no storage failure. *)
Lemma patchTab_calm k tab tabData w row o :
  db_store w !! k = Some row →
  data row = VObj o →
  calm w = true →
  ∃ w1, patchTab k tab tabData w = (w1, Resolved true)
        ∧ db_store w1 = <[k := Record_ k (clock w) (VObj (assign o tab tabData))]> (db_store w)
        ∧ clock w1 = clock w ∧ calm w1 = true.
Proof.
  intros Hrow Hdata Hc.
  destruct (get_calm k w Hc) as (wa & Hget & Hsa & Hca & Hcalm).
  destruct (put_calm k (VObj (assign o tab tabData)) wa Hcalm)
    as (w1 & Hput & Hs1 & Hc1 & Hcalm1).
  exists w1. split.
  { unfold patchTab, try_catch. unfold mbind at 1, Async_bind at 1.
    rewrite Hget, Hrow. cbn [mbind Async_bind lift]. rewrite Hdata. cbn.
    unfold mbind, Async_bind, Date_now, mret, Async_ret. cbn. rewrite Hput. done. }
  rewrite Hs1, Hsa, Hca, Hc1. done.
Qed.

(** With the name '__proto__' on an object that has no own property of
    that name, patchTab writes the entry back with its data as it was. *)
Lemma patchTab_proto k tabData w row o :
  db_store w !! k = Some row →
  data row = VObj o →
  calm w = true →
  o !! "__proto__" = None →
  ∃ w1, patchTab k "__proto__" tabData w = (w1, Resolved true)
        ∧ db_store w1 = <[k := Record_ k (clock w) (VObj o)]> (db_store w).
Proof.
  intros Hrow Hdata Hc Hnone.
  destruct (patchTab_calm k "__proto__" tabData w row o Hrow Hdata Hc) as (w1 & Hrun & Hst & _).
  exists w1. by rewrite Hrun, Hst, assign_proto.
Qed.




(** patchTab on data that is not an object: null and undefined make the
    assignment throw, which the catch clause turns into false; on another
    primitive the assignment is dropped and the entry is written back. *)
Lemma patchTab_null_data k tab tabData w row :
  db_store w !! k = Some row →
  data row = VNull ∨ data row = VUndefined →
  calm w = true →
  ∃ w1, patchTab k tab tabData w = (w1, Resolved false) ∧ db_store w1 = db_store w.
Proof.
  intros Hrow Hdata Hc.
  destruct (get_calm k w Hc) as (wa & Hget & Hsa & _).
  exists wa. split; [|done].
  unfold patchTab, try_catch. unfold mbind at 1, Async_bind at 1.
  rewrite Hget, Hrow. cbn [mbind Async_bind lift].
  destruct Hdata as [-> | ->]; done.
Qed.

(** ** remove, then get *)

(** C7. After remove(k) has resolved true, the store has no entry for k
    and a get(k) that meets no storage failure resolves null.  With no
    storage failure remove(k) resolves true whether or not k is cached,
    every other entry is as before, and removing an absent key leaves the
    whole store as it was. *)
Theorem remove_then_get (k : string) (w : world) :
  (∀ w1, remove k w = (w1, Resolved true) →
         db_store w1 !! k = None
         ∧ (calm w1 = true → ∃ w2, get k w1 = (w2, Resolved None)))
  ∧ (calm w = true →
     ∃ w1, remove k w = (w1, Resolved true)
           ∧ (∀ k', k' ≠ k → db_store w1 !! k' = db_store w !! k')
           ∧ (db_store w !! k = None → db_store w1 = db_store w)).
Proof.
  split.
  - intros w1 Hrm.
    destruct (remove_resolved _ _ _ _ Hrm) as [(_ & Hst)|(? & _)]; [|done].
    assert (Hnone : db_store w1 !! k = None) by (rewrite Hst; apply lookup_delete_eq).
    split; [done|]. intros Hc.
    destruct (get_calm k w1 Hc) as (w2 & Hget & _).
    exists w2. by rewrite Hget, Hnone.
  - intros Hc. destruct (remove_calm k w Hc) as (w1 & Hrm & Hst & _).
    exists w1. split; [done|]. split.
    + intros k' Hk'. rewrite Hst. by apply lookup_delete_ne.
    + intros Hnone. rewrite Hst. by apply delete_id.
Qed.

Lemma remove_then_get_witness :
  (db_store w_empty !! "2026tuis" = None
   ∧ (calm w_empty = true → ∃ w2, get "2026tuis" w_empty = (w2, Resolved None)))
  ∧ ∃ w1, remove "2024cmptx" w_saved = (w1, Resolved true)
          ∧ (∀ k', k' ≠ "2024cmptx" → db_store w1 !! k' = db_store w_saved !! k')
          ∧ (db_store w_saved !! "2024cmptx" = None → db_store w1 = db_store w_saved).
Proof.
  split.
  - apply (proj1 (remove_then_get "2026tuis" w_saved) w_empty). reflexivity.
  - apply (proj2 (remove_then_get "2024cmptx" w_saved)). reflexivity.
Defined.

(** ** Storage failures *)

(** X1. When indexedDB.open fails, the rejection is awaited inside the
    try block: get, put, remove, clear and list take their catch clause
    (null, false, false, false, the empty list) and the store is as
    before. *)
Lemma open_failure_is_caught k d w fs :
  failures w = true :: fs →
  let w' := World (db_store w) (clock w) fs in
  get k w = (w', Resolved None)
  ∧ put k d w = (w', Resolved false)
  ∧ remove k w = (w', Resolved false)
  ∧ clear w = (w', Resolved false)
  ∧ EventCache.list w = (w', Resolved []).
Proof.
  intros Hf. unfold_io. rewrite Hf. cbn. done.
Qed.

(** X2. When the database opens and the request or transaction then
    fails, the promise that rejects was returned without await: the catch
    clause is not taken and the rejection reaches the caller of get, put,
    remove, clear and list. *)
Lemma transaction_failure_escapes k d w fs :
  failures w = false :: true :: fs →
  let w' := World (db_store w) (clock w) fs in
  get k w = (w', Rejected DOMException)
  ∧ put k d w = (w', Rejected DOMException)
  ∧ remove k w = (w', Rejected DOMException)
  ∧ clear w = (w', Rejected DOMException)
  ∧ EventCache.list w = (w', Rejected DOMException).
Proof.
  intros Hf. unfold_io. rewrite Hf. cbn. done.
Qed.

Lemma open_failure_is_caught_witness :
  let w := World (db_store w_saved) 1700000000000 [true] in
  get "2026tuis" w = (w_saved, Resolved None)
  ∧ put "2026tuis" VNull w = (w_saved, Resolved false)
  ∧ remove "2026tuis" w = (w_saved, Resolved false)
  ∧ clear w = (w_saved, Resolved false)
  ∧ EventCache.list w = (w_saved, Resolved []).
Proof.
  apply (open_failure_is_caught "2026tuis" VNull
           (World (db_store w_saved) 1700000000000 [true]) []).
  reflexivity.
Defined.

Lemma transaction_failure_escapes_witness :
  let w := World (db_store w_saved) 1700000000000 [false; true] in
  get "2026tuis" w = (w_saved, Rejected DOMException)
  ∧ put "2026tuis" VNull w = (w_saved, Rejected DOMException)
  ∧ remove "2026tuis" w = (w_saved, Rejected DOMException)
  ∧ clear w = (w_saved, Rejected DOMException)
  ∧ EventCache.list w = (w_saved, Rejected DOMException).
Proof.
  apply (transaction_failure_escapes "2026tuis" VNull
           (World (db_store w_saved) 1700000000000 [false; true]) []).
  reflexivity.
Defined.

(** X3. patchTab awaits both get and put inside its try block, so it
    settles to a boolean whatever fails. *)
Lemma patchTab_never_rejects k tab tabData w :
  ∃ w' b, patchTab k tab tabData w = (w', Resolved b).
Proof.
  unfold patchTab, try_catch. unfold mbind at 1, Async_bind at 1.
  destruct (get k w) as [wa [[row|]|e]] eqn:Hget; cbn; eauto.
  unfold lift. destruct (set_prop (data row) tab tabData) as [d'|e]; cbn; eauto.
  unfold mbind, Async_bind, Date_now. cbn.
  destruct (put k d' wa) as [wb [b|e]]; cbn; eauto.
Qed.

Lemma get_store k w : db_store (get k w).1 = db_store w.
Proof.
  unfold_io. schedule w; done.
Qed.

Lemma get_resolved k w w' r :
  get k w = (w', Resolved r) → r = None ∨ r = db_store w !! k.
Proof.
  unfold_io. schedule w; intros H; inversion H; subst; cbn; auto.
Qed.

(** X4. patchTab on a key with no cached entry: false, and the store is
    as before, whatever fails. *)
Lemma patchTab_missing k tab tabData w :
  db_store w !! k = None →
  ∃ w', patchTab k tab tabData w = (w', Resolved false) ∧ db_store w' = db_store w.
Proof.
  intros Hnone.
  pose proof (get_store k w) as Hst.
  unfold patchTab, try_catch. unfold mbind at 1, Async_bind at 1.
  destruct (get k w) as [wa [r|e]] eqn:Hget; cbn in *; [|eauto].
  destruct (get_resolved _ _ _ _ Hget) as [-> | ->]; [|rewrite Hnone]; cbn; eauto.
Qed.

Lemma patchTab_missing_witness :
  ∃ w', patchTab "2024cmptx" "teams" VNull w_saved = (w', Resolved false)
        ∧ db_store w' = db_store w_saved.
Proof.
  apply (patchTab_missing "2024cmptx" "teams" VNull w_saved). reflexivity.
Defined.

(** C8, at its failing input: the database opens, the readwrite
    transaction of put then fails, and put rejects instead of resolving
    false; get does the same instead of resolving null. *)
Theorem put_rejects_to_caller :
  put "2026tuis" snapshot (World ∅ 1700000000000 [false; true])
    = (w_empty, Rejected DOMException)
  ∧ get "2026tuis" (World ∅ 1700000000000 [false; true])
    = (w_empty, Rejected DOMException).
Proof.
  split; reflexivity.
Qed.

(** ** The store under sequences of operations *)

Ltac schedule4 w :=
  destruct w as [st now fs]; cbn [failures db_store clock calm] in *;
  destruct fs as [|[] [|[] [|[] [|[] fs]]]]; cbn in *.

(** What an operation can have done to the store, whatever failed. *)
Lemma put_store k d w :
  db_store (put k d w).1 = db_store w
  ∨ db_store (put k d w).1 = <[k := Record_ k (clock w) d]> (db_store w).
Proof. unfold_io. schedule w; auto. Qed.

Lemma put_clock k d w : clock (put k d w).1 = clock w.
Proof. unfold_io. schedule w; auto. Qed.

Lemma get_clock k w : clock (get k w).1 = clock w.
Proof. unfold_io. schedule w; auto. Qed.

Lemma remove_store k w :
  db_store (remove k w).1 = db_store w
  ∨ db_store (remove k w).1 = delete k (db_store w).
Proof. unfold_io. schedule w; auto. Qed.

Lemma clear_store w :
  db_store (clear w).1 = db_store w ∨ db_store (clear w).1 = ∅.
Proof. unfold_io. schedule w; auto. Qed.

Lemma list_store w : db_store (EventCache.list w).1 = db_store w.
Proof. unfold_io. schedule w; auto. Qed.

Lemma patchTab_store k tab tabData w :
  db_store (patchTab k tab tabData w).1 = db_store w
  ∨ ∃ d, db_store (patchTab k tab tabData w).1 = <[k := Record_ k (clock w) d]> (db_store w).
Proof.
  pose proof (get_store k w) as Hst. pose proof (get_clock k w) as Hck.
  destruct (patchTab k tab tabData w) as [w' o] eqn:Hrun. cbn [fst].
  revert Hrun. unfold patchTab, try_catch. unfold mbind at 1, Async_bind at 1.
  destruct (get k w) as [wa [[row|]|e]]; cbn in *;
    try (intros [= <- <-]; by left).
  unfold lift. destruct (set_prop (data row) tab tabData) as [d'|e]; cbn;
    try (intros [= <- <-]; by left).
  unfold mbind, Async_bind, Date_now. cbn.
  pose proof (put_store k d' wa) as Hput. pose proof (put_clock k d' wa) as Hpc.
  destruct (put k d' wa) as [wb [b|e]]; cbn in *; intros [= <- <-];
    (destruct Hput as [Hput|Hput]; rewrite Hput;
     [by left|right; exists d'; by rewrite Hst, Hck]).
Qed.

Lemma keyed_insert k t d (st : gmap string record) :
  (∀ k' r, st !! k' = Some r → event_key r = k') →
  ∀ k' r, <[k := Record_ k t d]> st !! k' = Some r → event_key r = k'.
Proof.
  intros Hst k' r. destruct (decide (k = k')) as [->|Hne].
  - rewrite lookup_insert_eq. by intros [= <-].
  - rewrite lookup_insert_ne by done. apply Hst.
Qed.

(** X5. Every operation of the cache keeps each row under its own
    event_key, whatever storage failure occurs. *)
Theorem operations_keep_rows_keyed (k tab : string) (d : value) (w : world) :
  keyed w →
  keyed (get k w).1 ∧ keyed (put k d w).1 ∧ keyed (patchTab k tab d w).1
  ∧ keyed (remove k w).1 ∧ keyed (clear w).1 ∧ keyed (EventCache.list w).1.
Proof.
  intros Hk. unfold keyed in *. repeat split.
  - by rewrite get_store.
  - destruct (put_store k d w) as [->| ->]; [done|by apply keyed_insert].
  - destruct (patchTab_store k tab d w) as [->|[d' ->]]; [done|by apply keyed_insert].
  - destruct (remove_store k w) as [->| ->]; [done|].
    intros k' r [_ Hr]%lookup_delete_Some. by apply Hk.
  - destruct (clear_store w) as [->| ->]; [done|]. intros k' r. by rewrite lookup_empty.
  - by rewrite list_store.
Qed.

Lemma operations_keep_rows_keyed_witness :
  keyed (get "2026tuis" w_saved).1 ∧ keyed (put "2026tuis" VNull w_saved).1
  ∧ keyed (patchTab "2026tuis" "teams" VNull w_saved).1
  ∧ keyed (remove "2026tuis" w_saved).1 ∧ keyed (clear w_saved).1
  ∧ keyed (EventCache.list w_saved).1.
Proof.
  apply (operations_keep_rows_keyed "2026tuis" "teams" VNull w_saved).
  intros k r. unfold w_saved. cbn [db_store].
  intros [<- <-]%lookup_singleton_Some. reflexivity.
Defined.

(** ** list and clear *)

Lemma list_calm w :
  calm w = true →
  ∃ w', EventCache.list w
          = (w', Resolved (summarize <$> merge_sort key_le (map_to_list (db_store w)).*2))
        ∧ db_store w' = db_store w.
Proof.
  intros Hc. unfold_io. schedule w; try discriminate; eauto 10.
Qed.

(** The keys of the rows of a keyed store are the keys of the store. *)
Lemma keyed_rows (st : gmap string record) :
  (∀ k r, st !! k = Some r → event_key r = k) →
  event_key <$> (map_to_list st).*2 = (map_to_list st).*1.
Proof.
  intros Hk.
  assert (H : ∀ l : Datatypes.list (string * record)%type,
             (∀ k r, (k, r) ∈ l → event_key r = k) → event_key <$> l.*2 = l.*1).
  { induction l as [|[k r] l IH]; intros Hl; [done|]. cbn. f_equal.
    - apply Hl. apply list_elem_of_here.
    - apply IH. intros k' r' Hin. apply Hl. by apply list_elem_of_further. }
  apply H. intros k r Hin. apply Hk. by apply elem_of_map_to_list.
Qed.

(** X6. With no storage failure, list resolves with one summary per
    cached row and leaves the store alone: the event keys of the
    summaries are exactly the keys of the store, without repetition and
    in ascending order, and each summary is the summary of the row under
    its key. *)
Theorem list_shows_the_store (w : world) :
  calm w = true →
  keyed w →
  ∃ w' l,
    EventCache.list w = (w', Resolved l)
    ∧ db_store w' = db_store w
    ∧ length l = size (db_store w)
    ∧ (∀ k, k ∈ s_event_key <$> l ↔ is_Some (db_store w !! k))
    ∧ NoDup (s_event_key <$> l)
    ∧ Sorted String.le (s_event_key <$> l)
    ∧ (∀ s, s ∈ l → ∃ r, db_store w !! s_event_key s = Some r ∧ s = summarize r).
Proof.
  intros Hc Hk. destruct (list_calm w Hc) as (w' & Hrun & Hst).
  set (rows := merge_sort key_le (map_to_list (db_store w)).*2) in *.
  assert (Hperm : rows ≡ₚ (map_to_list (db_store w)).*2) by apply merge_sort_Permutation.
  assert (Hkeys : s_event_key <$> (summarize <$> rows) = event_key <$> rows).
  { rewrite <- list_fmap_compose. done. }
  assert (Hpk : event_key <$> rows ≡ₚ (map_to_list (db_store w)).*1).
  { rewrite Hperm. by rewrite keyed_rows. }
  exists w', (summarize <$> rows). split; [done|]. split; [done|].
  split; [|split; [|split; [|split]]].
  - rewrite length_fmap, Hperm, length_fmap. apply length_map_to_list.
  - intros k. rewrite Hkeys, Hpk, list_elem_of_fmap. split.
    + intros ([k' r] & -> & Hin). apply elem_of_map_to_list in Hin. by eexists.
    + intros [r Hr]. exists (k, r). split; [done|]. by apply elem_of_map_to_list.
  - rewrite Hkeys, Hpk. apply NoDup_fst_map_to_list.
  - rewrite Hkeys. apply (Sorted_fmap _ key_le); [done|].
    assert (Total key_le) by (intros a b; apply (total String.le)).
    apply (Sorted_merge_sort key_le).
  - intros s (r & -> & Hr)%list_elem_of_fmap. exists r. split; [|done].
    rewrite Hperm in Hr. apply list_elem_of_fmap in Hr as ([k r'] & -> & Hin).
    apply elem_of_map_to_list in Hin. cbn. by rewrite (Hk _ _ Hin).
Qed.

Lemma w_saved_keyed : keyed w_saved.
Proof.
  intros k r. unfold w_saved. cbn [db_store].
  intros [<- <-]%lookup_singleton_Some. reflexivity.
Qed.

Lemma list_shows_the_store_witness :
  ∃ w' l,
    EventCache.list w_saved = (w', Resolved l)
    ∧ db_store w' = db_store w_saved
    ∧ length l = size (db_store w_saved)
    ∧ (∀ k, k ∈ s_event_key <$> l ↔ is_Some (db_store w_saved !! k))
    ∧ NoDup (s_event_key <$> l)
    ∧ Sorted String.le (s_event_key <$> l)
    ∧ (∀ s, s ∈ l → ∃ r, db_store w_saved !! s_event_key s = Some r ∧ s = summarize r).
Proof.
  apply (list_shows_the_store w_saved); [reflexivity|apply w_saved_keyed].
Defined.

Example list_sample :
  (EventCache.list w_saved).2
  = Resolved [Summary "2026tuis" 1700000000000 (VStr "Bosphorus Regional") (VStr "") (VStr "")].
Proof. reflexivity. Qed.

(** X7. After clear has resolved true the store is empty: with no
    storage failure every get resolves null and list resolves the empty
    list.  With no storage failure clear does resolve true. *)
Theorem clear_empties_the_store (w : world) :
  (∀ w1, clear w = (w1, Resolved true) →
         db_store w1 = ∅
         ∧ (calm w1 = true →
            (∀ k, ∃ w2, get k w1 = (w2, Resolved None))
            ∧ ∃ w2, EventCache.list w1 = (w2, Resolved [])))
  ∧ (calm w = true → ∃ w1, clear w = (w1, Resolved true) ∧ calm w1 = true).
Proof.
  split.
  - intros w1 Hclear.
    assert (Hst : db_store w1 = ∅).
    { revert Hclear. unfold_io. schedule w; intros [= <-]; done. }
    split; [done|]. intros Hc. split.
    + intros k. destruct (get_calm k w1 Hc) as (w2 & Hget & _).
      exists w2. by rewrite Hget, Hst, lookup_empty.
    + destruct (list_calm w1 Hc) as (w2 & Hlist & _).
      exists w2. by rewrite Hlist, Hst, map_to_list_empty.
  - intros Hc. unfold_io. schedule w; try discriminate; eauto.
Qed.

Lemma clear_empties_the_store_witness :
  (db_store w_empty = ∅
   ∧ (calm w_empty = true →
      (∀ k, ∃ w2, get k w_empty = (w2, Resolved None))
      ∧ ∃ w2, EventCache.list w_empty = (w2, Resolved [])))
  ∧ ∃ w1, clear w_saved = (w1, Resolved true) ∧ calm w1 = true.
Proof.
  split.
  - apply (proj1 (clear_empties_the_store w_saved) w_empty). reflexivity.
  - apply (proj2 (clear_empties_the_store w_saved)). reflexivity.
Defined.



Lemma at_time_calm t w : calm (at_time t w) = calm w.
Proof. done. Qed.



(** ** Two patches that are not awaited *)

(** patchTab is its read followed by its continuation. *)
Lemma patchTab_phases k tab tabData w :
  patchTab k tab tabData w
  = let '(w', got) := get k w in patchTab_resume k tab tabData got w'.
Proof.
  unfold patchTab, patchTab_resume, try_catch.
  unfold mbind at 1 4, Async_bind at 1 4, lift at 2.
  destruct (get k w) as [w' [r|e]]; done.
Qed.




(** The same run, evaluated: the name of the event is the old one. *)
Example unawaited_patch_sample :
  data <$> db_store (patchTab_unawaited "2026tuis" "info" (VStr "fresh")
                       "teams" (VStr "loaded") false w_saved).1 !! "2026tuis"
  = Some (VObj {[ "info" := VObj {[ "name" := VStr "Bosphorus Regional" ]};
                  "teams" := VStr "loaded" ]}).
Proof. vm_compute. reflexivity. Qed.

End EventCacheFacts.

(* ===================================================================== *)
(*  Properties of api.js                                                 *)
(* ===================================================================== *)

Module APIFacts.
Import API.

(** Reading the body and raising the error sends nothing. *)
Lemma settle_net resp n : (settle resp n).1 = n.
Proof.
  unfold settle, json, catch, lift, throw, mbind, mret, Async_bind, Async_ret.
  destruct (negb (ok resp)), (json_body resp) as [[]|]; done.
Qed.

Lemma fetch_then_settle req n :
  ((resp ← fetch req; settle resp) n).1 = Net (sent n ++ [req]) (server n).
Proof.
  unfold mbind, Async_bind, fetch.
  destruct (server n req) as [resp|e]; [|done].
  apply settle_net.
Qed.

(** post and del send their one request as well. *)
Lemma post_net path body n :
  (post path body n).1 = Net (sent n ++ [post_request path body]) (server n).
Proof.
  unfold post, json, catch, lift, throw, mbind, mret, Async_bind, Async_ret, fetch.
  destruct (server n _) as [resp|e]; [|done].
  destruct (negb (ok resp)), (json_body resp) as [[]|]; done.
Qed.

Lemma del_net path n :
  (del path n).1 = Net (sent n ++ [del_request path]) (server n).
Proof.
  unfold del, json, catch, lift, throw, mbind, mret, Async_bind, Async_ret, fetch.
  destruct (server n _) as [resp|e]; [|done].
  destruct (negb (ok resp)), (json_body resp) as [[]|]; done.
Qed.

(** The world after an operation that has sent its request. *)
Ltac sent_one :=
  first [rewrite post_net | rewrite del_net | unfold get; rewrite fetch_then_settle].

(** C1, as far as it holds.  Every operation of the module sends exactly
    one request.  It is a GET for every operation but four: post and
    saveEvent send a POST, del and deleteSaved send a DELETE. *)
Theorem one_request_per_call (encodeURIComponent : string → string) (c : call) (n : net) :
  ∃ r, sent (run encodeURIComponent c n).1 = sent n ++ [r]
       ∧ server (run encodeURIComponent c n).1 = server n
       ∧ method r = method_of c
       ∧ (method r = GET ↔ reads c = true).
Proof.
  destruct c; cbn [run method_of reads];
    unfold seasonEvents, eventInfo, eventTeams, eventSummary, eventSummaryRefresh,
      eventConnections, clearCache, refreshRankings, playoffMatches, allMatches,
      matchBreakdown, teamPerf, alliances, teamStats, headToHead, compareTeams,
      regionFacts, regionsList, eventHistory, savedList, saveEvent, loadSaved,
      deleteSaved;
    sent_one; cbn [sent server];
    (eexists; split; [reflexivity|]; split; [reflexivity|]; cbn [method]);
    (split; [reflexivity|]); split; done.
Qed.

(** C1 fails on the saved-event operations: saving an event is a POST
    and deleting a saved one is a DELETE. *)
Lemma saved_events_are_written :
  sent (saveEvent "2026tuis" (VObj ∅) (answering not_found)).1
    = [Request POST "/api/events/2026tuis/save"
         [("Content-Type", "application/json")] (Some (VObj ∅))]
  ∧ sent (deleteSaved "2026tuis" (answering not_found)).1
    = [Request DELETE "/api/events/2026tuis/saved" [] None]
  ∧ POST ≠ GET ∧ DELETE ≠ GET.
Proof.
  repeat split; done.
Qed.

(** ** The outcome of API.get *)

Lemma get_unfold path n :
  (get path n).2 =
    match server n (get_request path) with
    | Rejected e => Rejected e
    | Resolved resp => (settle resp (Net (sent n ++ [get_request path]) (server n))).2
    end.
Proof.
  unfold get, mbind, Async_bind, fetch, get_request.
  by destruct (server n _).
Qed.

Lemma settle_ok resp n :
  ok resp = true →
  (settle resp n).2 = match json_body resp with
                      | Some v => Resolved v
                      | None => Rejected SyntaxError
                      end.
Proof.
  intros Hok. unfold settle, json. rewrite Hok. cbn.
  by destruct (json_body resp).
Qed.

Lemma settle_not_ok resp n :
  ok resp = false →
  (settle resp n).2 =
    match json_body resp with
    | Some body =>
        if nullish body then Rejected TypeError
        else Rejected (Error (js_or (opt_prop body "detail") (http_status resp)))
    | None => Rejected (Error (http_status resp))
    end.
Proof.
  intros Hok. unfold settle, json, catch, lift, throw, mbind, mret, Async_bind, Async_ret.
  rewrite Hok. cbn.
  destruct (json_body resp) as [[]|]; done.
Qed.

(** C5, as far as it holds.  Let fetch settle with a response.
    API.get resolves exactly when the response is ok and its body is
    JSON, and then with the parsed body; so it rejects whenever the
    response is not ok.  For a response that is not ok: a body that is
    not JSON, or one without a truthy detail field, gives the Error built
    from 'HTTP <status>'; a body (other than null) with a truthy detail
    field gives the Error built from that field. *)
Theorem get_outcome (path : string) (n : net) (resp : response) :
  server n (get_request path) = Resolved resp →
  (∀ v, (get path n).2 = Resolved v ↔ ok resp = true ∧ json_body resp = Some v)
  ∧ (ok resp = false → ∃ e, (get path n).2 = Rejected e)
  ∧ (ok resp = false → json_body resp = None →
     (get path n).2 = Rejected (Error (http_status resp)))
  ∧ (∀ body, ok resp = false → json_body resp = Some body → nullish body = false →
     (get path n).2 =
       Rejected (Error (if truthy (opt_prop body "detail")
                        then opt_prop body "detail" else http_status resp))).
Proof.
  intros Hresp. rewrite get_unfold, Hresp.
  destruct (ok resp) eqn:Hok.
  - rewrite settle_ok by done. split; [|done].
    intros v. split.
    + intros Hv. destruct (json_body resp); by inversion Hv.
    + by intros [_ ->].
  - rewrite settle_not_ok by done. split; [|split; [|split]].
    + intros v. split; [|by intros [? _]].
      intros Hv. destruct (json_body resp) as [b|]; [destruct (nullish b)|]; done.
    + intros _. destruct (json_body resp) as [b|]; [destruct (nullish b)|]; eauto.
    + by intros _ ->.
    + intros body _ -> ->. done.
Qed.

Lemma get_outcome_witness :
  (∀ v, (get "/events/2026tuis/info" (answering not_found)).2 = Resolved v
        ↔ ok not_found = true ∧ json_body not_found = Some v)
  ∧ (ok not_found = false →
     ∃ e, (get "/events/2026tuis/info" (answering not_found)).2 = Rejected e)
  ∧ (ok not_found = false → json_body not_found = None →
     (get "/events/2026tuis/info" (answering not_found)).2
       = Rejected (Error (http_status not_found)))
  ∧ (∀ body, ok not_found = false → json_body not_found = Some body →
     nullish body = false →
     (get "/events/2026tuis/info" (answering not_found)).2 =
       Rejected (Error (if truthy (opt_prop body "detail")
                        then opt_prop body "detail" else http_status not_found))).
Proof.
  apply (get_outcome "/events/2026tuis/info" (answering not_found) not_found).
  reflexivity.
Defined.

(** The error of the sample response carries its detail. *)
Example get_not_found :
  (get "/events/2026tuis/info" (answering not_found)).2
    = Rejected (Error (VStr "Event not found")).
Proof. reflexivity. Qed.

(** C5 fails in three places: an ok response whose body is not JSON
    rejects; a detail field that is present but falsy (here the empty
    string) is replaced by 'HTTP <status>'; and a body that is the JSON
    null gives a TypeError instead of an Error with either message. *)
Lemma get_departs_from_detail_rule :
  (ok (Response 200 None) = true
   ∧ (get "/events/2026tuis/info" (answering (Response 200 None))).2
       = Rejected SyntaxError)
  ∧ (get "/events/2026tuis/info"
       (answering (Response 500 (Some (VObj {[ "detail" := VStr "" ]}))))).2
      = Rejected (Error (VStr "HTTP 500"))
  ∧ (get "/events/2026tuis/info" (answering (Response 500 (Some VNull)))).2
      = Rejected TypeError.
Proof.
  repeat split; reflexivity.
Qed.

(** ** The three verbs and the requests they send *)

(** What post and del settle to, read off their own bodies. *)
Lemma post_outcome path body n :
  (post path body n).2 =
    match server n (post_request path body) with
    | Rejected e => Rejected e
    | Resolved resp =>
        if ok resp then
          match json_body resp with
          | Some v => Resolved v
          | None => Rejected SyntaxError
          end
        else
          match json_body resp with
          | Some b =>
              if nullish b then Rejected TypeError
              else Rejected (Error (js_or (opt_prop b "detail") (http_status resp)))
          | None => Rejected (Error (http_status resp))
          end
    end.
Proof.
  unfold post, json, catch, lift, throw, mbind, mret, Async_bind, Async_ret, fetch.
  destruct (server n _) as [resp|e]; [|done].
  destruct (ok resp), (json_body resp) as [[]|]; done.
Qed.

Lemma del_outcome path n :
  (del path n).2 =
    match server n (del_request path) with
    | Rejected e => Rejected e
    | Resolved resp =>
        if ok resp then
          match json_body resp with
          | Some v => Resolved v
          | None => Rejected SyntaxError
          end
        else
          match json_body resp with
          | Some b =>
              if nullish b then Rejected TypeError
              else Rejected (Error (js_or (opt_prop b "detail") (http_status resp)))
          | None => Rejected (Error (http_status resp))
          end
    end.
Proof.
  unfold del, json, catch, lift, throw, mbind, mret, Async_bind, Async_ret, fetch.
  destruct (server n _) as [resp|e]; [|done].
  destruct (ok resp), (json_body resp) as [[]|]; done.
Qed.

Lemma get_outcome_table path n :
  (get path n).2 =
    match server n (get_request path) with
    | Rejected e => Rejected e
    | Resolved resp =>
        if ok resp then
          match json_body resp with
          | Some v => Resolved v
          | None => Rejected SyntaxError
          end
        else
          match json_body resp with
          | Some b =>
              if nullish b then Rejected TypeError
              else Rejected (Error (js_or (opt_prop b "detail") (http_status resp)))
          | None => Rejected (Error (http_status resp))
          end
    end.
Proof.
  rewrite get_unfold. destruct (server n _) as [resp|e]; [|done].
  destruct (ok resp) eqn:Hok; [by rewrite settle_ok|by rewrite settle_not_ok].
Qed.

(** X10. get, post and del settle alike: when fetch settles the same
    way for a post or a del as for a get (the same response, or the same
    network failure), the post or del resolves or rejects exactly as the
    get does; and a failure of fetch is passed on unchanged by all three. *)
Theorem verbs_settle_alike (path path' : string) (body : value) (n n' : net) :
  let req_post := post_request path' body in
  let req_del := del_request path' in
  (server n' req_post = server n (get_request path) →
   (post path' body n').2 = (get path n).2)
  ∧ (server n' req_del = server n (get_request path) →
     (del path' n').2 = (get path n).2)
  ∧ (∀ e, server n (get_request path) = Rejected e → (get path n).2 = Rejected e)
  ∧ (∀ e, server n' req_post = Rejected e → (post path' body n').2 = Rejected e)
  ∧ (∀ e, server n' req_del = Rejected e → (del path' n').2 = Rejected e).
Proof.
  cbn zeta. rewrite get_outcome_table, post_outcome, del_outcome.
  repeat split.
  - by intros ->.
  - by intros ->.
  - by intros e ->.
  - by intros e ->.
  - by intros e ->.
Qed.

Lemma verbs_settle_alike_witness :
  (post "/events/2026tuis/save" (VObj ∅) (answering not_found)).2
    = (get "/events/2026tuis/info" (answering not_found)).2
  ∧ (del "/events/2026tuis/saved" (answering not_found)).2
    = (get "/events/2026tuis/info" (answering not_found)).2.
Proof.
  destruct (verbs_settle_alike "/events/2026tuis/info" "/events/2026tuis/save"
              (VObj ∅) (answering not_found) (answering not_found)) as (Hp & _).
  destruct (verbs_settle_alike "/events/2026tuis/info" "/events/2026tuis/saved"
              (VObj ∅) (answering not_found) (answering not_found)) as (_ & Hd & _).
  split; [apply Hp|apply Hd]; reflexivity.
Defined.

Lemma prefix_app (s t : string) : String.prefix s (s +:+ t) = true.
Proof.
  induction s as [|a s IH]; [by destruct t|].
  change (String a s +:+ t) with (String a (s +:+ t)). cbn.
  destruct (Ascii.ascii_dec a a); [done|congruence].
Qed.

(** X11. Every request of the module goes to a URL under /api, and a
    request carries a body and the JSON content type only when it comes
    from post or saveEvent with a truthy body; every other request has no
    header and no body. *)
Theorem requests_stay_under_api (encodeURIComponent : string → string) (c : call) (n : net) :
  ∃ r, sent (run encodeURIComponent c n).1 = sent n ++ [r]
       ∧ String.prefix "/api" (url r) = true
       ∧ match c with
         | CPost _ body | CSaveEvent _ body =>
             if truthy body
             then headers r = [("Content-Type", "application/json")] ∧ req_body r = Some body
             else headers r = [] ∧ req_body r = None
         | _ => headers r = [] ∧ req_body r = None
         end.
Proof.
  destruct c; cbn [run];
    unfold seasonEvents, eventInfo, eventTeams, eventSummary, eventSummaryRefresh,
      eventConnections, clearCache, refreshRankings, playoffMatches, allMatches,
      matchBreakdown, teamPerf, alliances, teamStats, headToHead, compareTeams,
      regionFacts, regionsList, eventHistory, savedList, saveEvent, loadSaved,
      deleteSaved;
    sent_one; unfold get_request, post_request, del_request; cbn [sent];
    (eexists; split; [reflexivity|]; cbn [url headers req_body]);
    (split; [apply prefix_app|]);
    try done; by destruct (truthy _).
Qed.

(** ** The API object of the docs frontend *)

(** X12. Every operation of docs/js/api.js sends exactly one request,
    and it is a GET under /api without header or body: the docs frontend
    only reads. *)
Theorem docs_api_only_gets (encodeURIComponent : string → string)
    (c : DocsAPI.call) (n : net) :
  ∃ r, sent (DocsAPI.run encodeURIComponent c n).1 = sent n ++ [r]
       ∧ server (DocsAPI.run encodeURIComponent c n).1 = server n
       ∧ method r = GET
       ∧ String.prefix "/api" (url r) = true
       ∧ headers r = [] ∧ req_body r = None.
Proof.
  destruct c; cbn [DocsAPI.run];
    unfold DocsAPI.seasonEvents, DocsAPI.eventInfo, DocsAPI.eventTeams,
      DocsAPI.eventSummary, DocsAPI.eventSummaryRefresh, DocsAPI.eventSummaryAwards,
      DocsAPI.eventConnections, DocsAPI.clearCache, DocsAPI.refreshRankings,
      DocsAPI.playoffMatches, DocsAPI.allMatches, DocsAPI.matchBreakdown,
      DocsAPI.teamPerf, DocsAPI.alliances, DocsAPI.teamStats, DocsAPI.teamAwardsSummary,
      DocsAPI.headToHead, DocsAPI.compareTeams, DocsAPI.regionFacts,
      DocsAPI.regionsList, DocsAPI.eventHistory, get, get_request;
    rewrite fetch_then_settle; cbn [sent server];
    (eexists; split; [reflexivity|]; cbn [url headers req_body method]);
    repeat split; apply prefix_app.
Qed.

Example docs_connections_url :
  url <$> sent (DocsAPI.eventConnections "2026tuis" true ["frc9020"; "frc254"]
                  (answering not_found)).1
  = ["/api/events/2026tuis/summary/connections?all_time=true&teams=frc9020,frc254"]
  ∧ url <$> sent (DocsAPI.eventConnections "2026tuis" false [] (answering not_found)).1
    = ["/api/events/2026tuis/summary/connections?all_time=false"].
Proof. split; reflexivity. Qed.

End APIFacts.

(* ===================================================================== *)
(*  Properties of app.js                                                 *)
(* ===================================================================== *)

Module AppFacts.
Import App.

(** ** Sorting with a comparator *)

Section SortBy.
Context {A : Type} (cmp : A → A → Z).

Hypothesis before_total : ∀ a b, before cmp a b ∨ before cmp b a.
Hypothesis before_trans : ∀ a b c, before cmp a b → before cmp b c → before cmp a c.

Lemma insert_by_perm x l : insert_by cmp x l ≡ₚ x :: l.
Proof.
  induction l as [|y l IH]; cbn; [done|].
  destruct (cmp x y <=? 0); [done|].
  rewrite IH. apply Permutation_swap.
Qed.

Lemma sort_by_perm l : sort_by cmp l ≡ₚ l.
Proof.
  induction l as [|x l IH]; cbn; [done|].
  fold (sort_by cmp l). by rewrite insert_by_perm, IH.
Qed.

Lemma insert_by_sorted x l :
  StronglySorted (before cmp) l → StronglySorted (before cmp) (insert_by cmp x l).
Proof.
  induction 1 as [|y l Hl IH Hy]; cbn.
  - repeat constructor.
  - destruct (Z.leb_spec (cmp x y) 0) as [Hxy|Hxy].
    + constructor; [by constructor|].
      constructor; [done|].
      eapply Forall_impl; [exact Hy|]. intros z Hz. by eapply before_trans.
    + constructor; [done|].
      rewrite insert_by_perm. constructor; [|done].
      destruct (before_total x y) as [H|H]; [unfold before in H; lia|done].
Qed.

Lemma sort_by_sorted l : StronglySorted (before cmp) (sort_by cmp l).
Proof.
  induction l as [|x l IH]; cbn; [constructor|].
  by apply insert_by_sorted.
Qed.

End SortBy.

(** In a strongly sorted list an earlier element stands before a later one. *)
Lemma StronglySorted_lookup {A} (R : relation A) (l : list A) (i j : nat) (a b : A) :
  StronglySorted R l → (i < j)%nat → l !! i = Some a → l !! j = Some b → R a b.
Proof.
  intros Hl. revert i j. induction Hl as [|x l Hl IH Hx]; intros i j Hij Hi Hj.
  - done.
  - destruct j as [|j]; [lia|]. destruct i as [|i]; cbn in *.
    + inversion Hi; subst. rewrite Forall_forall in Hx.
      apply Hx. by eapply list_elem_of_lookup_2.
    + apply (IH i j); [lia|done..].
Qed.

(** ** The rankings table sorted by rank *)

Section RankSort.
Variable toLowerCase : string → string.
Variable localeCompare : string → string → Z.

Local Notation "'by_rank'" := (compare_teams toLowerCase localeCompare ColRank true).

(** Ascending by rank, the comparator orders by effective rank and then
    by team number. *)
Lemma by_rank_before a b :
  before by_rank a b ↔
    effective_rank a < effective_rank b
    ∨ (effective_rank a = effective_rank b ∧ team_number a <= team_number b).
Proof.
  unfold before, compare_teams. cbn zeta.
  destruct (Z.eqb_spec (effective_rank a) (effective_rank b)); cbn; lia.
Qed.

Lemma by_rank_total a b : before by_rank a b ∨ before by_rank b a.
Proof. rewrite !by_rank_before. lia. Qed.

Lemma by_rank_trans a b c :
  before by_rank a b → before by_rank b c → before by_rank a c.
Proof. rewrite !by_rank_before. lia. Qed.

(** Any list sorted under the comparator is ordered by effective rank and
    then by team number, whatever algorithm sorted it. *)
Lemma sorted_by_rank_order (l : list team) (i j : nat) (a b : team) :
  StronglySorted (before by_rank) l →
  (i < j)%nat → l !! i = Some a → l !! j = Some b →
  effective_rank a <= effective_rank b
  ∧ (effective_rank a = effective_rank b → team_number a <= team_number b).
Proof.
  intros Hl Hij Hi Hj.
  pose proof (StronglySorted_lookup _ _ _ _ _ _ Hl Hij Hi Hj) as H.
  apply by_rank_before in H. lia.
Qed.

(** With every numeric rank below 999, a team without a rank cannot
    stand before a team with one. *)
Lemma sorted_by_rank_unranked_last (l : list team) (i j : nat) (u r : team) :
  StronglySorted (before by_rank) l →
  (∀ t n, t ∈ l → rank t = Some n → n < 999) →
  l !! i = Some u → l !! j = Some r →
  rank u = None → is_Some (rank r) → (j < i)%nat.
Proof.
  intros Hl Hlow Hi Hj Hu [n Hr].
  assert (Hn : n < 999) by (apply (Hlow r); [by eapply list_elem_of_lookup_2|done]).
  destruct (Nat.lt_trichotomy j i) as [?|[->|Hlt]]; [done|congruence|].
  destruct (sorted_by_rank_order l i j u r Hl Hlt Hi Hj) as [Hle _].
  unfold effective_rank in Hle. rewrite Hu, Hr in Hle. cbn in Hle. lia.
Qed.

(** C10. Sorting the rankings table ascending by rank keeps the teams and
    orders them by effective rank (the rank, or 999 for a team whose rank
    is not a number); teams of equal effective rank stand in ascending
    team number; and when every numeric rank is below 999, every team
    with a rank stands before every team without one. *)
Theorem rank_sort_order (ts : list team) :
  ∃ sorted,
    teamsData (sortTeamsData toLowerCase localeCompare (Rankings (Some ts) ColRank true))
      = Some sorted
    ∧ sorted ≡ₚ ts
    ∧ (∀ i j a b, (i < j)%nat → sorted !! i = Some a → sorted !! j = Some b →
         effective_rank a <= effective_rank b
         ∧ (effective_rank a = effective_rank b → team_number a <= team_number b))
    ∧ ((∀ t n, t ∈ ts → rank t = Some n → n < 999) →
       ∀ i j u r, sorted !! i = Some u → sorted !! j = Some r →
         rank u = None → is_Some (rank r) → (j < i)%nat).
Proof.
  exists (sort_by by_rank ts). split; [done|].
  split; [apply sort_by_perm|].
  assert (Hsorted : StronglySorted (before by_rank) (sort_by by_rank ts))
    by (apply sort_by_sorted; [apply by_rank_total|apply by_rank_trans]).
  split.
  - intros i j a b. by apply sorted_by_rank_order.
  - intros Hlow i j u r. apply sorted_by_rank_unranked_last; [done|].
    intros t n Ht. apply Hlow. by rewrite <- (sort_by_perm by_rank ts).
Qed.

End RankSort.

Example rank_sort_sample :
  team_number <$>
    default [] (teamsData (sortTeamsData id (λ _ _, 0) (Rankings (Some sample_teams) ColRank true)))
  = [1678; 9020; 118; 254].
Proof. reflexivity. Qed.

Lemma rank_sort_order_witness :
  ∃ sorted,
    teamsData (sortTeamsData id (λ _ _, 0) (Rankings (Some sample_teams) ColRank true))
      = Some sorted
    ∧ ∀ i j u r, sorted !! i = Some u → sorted !! j = Some r →
        rank u = None → is_Some (rank r) → (j < i)%nat.
Proof.
  destruct (rank_sort_order id (λ _ _, 0) sample_teams) as (sorted & Hs & _ & _ & Hlate).
  exists sorted. split; [exact Hs|]. apply Hlate.
  intros t n Ht Hn. unfold sample_teams in Ht.
  repeat (apply elem_of_cons in Ht as [->|Ht]; [cbn in Hn; inversion Hn; lia|]).
  by apply elem_of_nil in Ht.
Defined.

(** ** Match navigation *)

Ltac nav_cases :=
  unfold pbp_bounds, bd_bounds, in_bounds, pbpPrev, pbpNext, bdPrev, bdNext,
    renderPbpMatch, loadBdMatch, set_pbp, set_bd in *;
  repeat match goal with
         | st : nav |- _ => destruct st as [pd pi ps bd bi bs]; cbn in *
         | d : option (list value) |- _ => destruct d; cbn in *
         | |- context [?a <? ?b] => destruct (Z.ltb_spec a b); cbn in *
         | |- context [?a =? ?b] => destruct (Z.eqb_spec a b); cbn in *
         | H : Some _ = Some _ |- _ => inversion H; clear H; subst
         end.

(** C9. Each of pbpPrev, pbpNext, bdPrev and bdNext keeps an index that
    is within the bounds of its loaded, non-empty match list within them,
    and leaves the data alone; pbpPrev and bdPrev at index 0, and pbpNext
    and bdNext at the last index, leave the whole state as it is. *)
Theorem navigation_keeps_bounds (st : nav) :
  (pbp_bounds st →
     pbp_bounds (pbpPrev st) ∧ pbp_bounds (pbpNext st)
     ∧ pbp_bounds (bdPrev st) ∧ pbp_bounds (bdNext st)
     ∧ (pbpIndex st = 0 → pbpPrev st = st)
     ∧ (∀ ms, pbpData st = Some ms → pbpIndex st = matches_length ms - 1 → pbpNext st = st))
  ∧ (bd_bounds st →
     bd_bounds (bdPrev st) ∧ bd_bounds (bdNext st)
     ∧ bd_bounds (pbpPrev st) ∧ bd_bounds (pbpNext st)
     ∧ (bdIndex st = 0 → bdPrev st = st)
     ∧ (∀ ms, bdData st = Some ms → bdIndex st = matches_length ms - 1 → bdNext st = st)).
Proof.
  split; intros Hb; repeat split; try intros ms Hms; try intros Hi;
    nav_cases; try done; try lia.
Qed.

Lemma navigation_keeps_bounds_witness :
  (pbp_bounds (pbpPrev at_first) ∧ pbp_bounds (pbpNext at_first)
   ∧ pbp_bounds (bdPrev at_first) ∧ pbp_bounds (bdNext at_first)
   ∧ (pbpIndex at_first = 0 → pbpPrev at_first = at_first)
   ∧ (∀ ms, pbpData at_first = Some ms →
        pbpIndex at_first = matches_length ms - 1 → pbpNext at_first = at_first))
  ∧ (bd_bounds (bdPrev at_first) ∧ bd_bounds (bdNext at_first)
     ∧ bd_bounds (pbpPrev at_first) ∧ bd_bounds (pbpNext at_first)
     ∧ (bdIndex at_first = 0 → bdPrev at_first = at_first)
     ∧ (∀ ms, bdData at_first = Some ms →
          bdIndex at_first = matches_length ms - 1 → bdNext at_first = at_first)).
Proof.
  split.
  - apply (proj1 (navigation_keeps_bounds at_first)).
    unfold pbp_bounds, in_bounds, matches_length. cbn. lia.
  - apply (proj2 (navigation_keeps_bounds at_first)).
    unfold bd_bounds, in_bounds, matches_length. cbn. lia.
Defined.

Example navigation_sample :
  pbpIndex (pbpNext at_first) = 1 ∧ pbpIndex (pbpPrev at_first) = 0
  ∧ bdIndex (bdNext at_first) = 2 ∧ bdIndex (bdPrev at_first) = 1.
Proof. repeat split. Qed.

(** ** The winner marks of the playoff renderers *)

Lemma winner_class c (won : bool) :
  has_class "winner"
    ("alliance " +:+ color_name c +:+ " " +:+ (if won then "winner" else "")) = won.
Proof. by destruct c, won. Qed.

Lemma won_class side (won : bool) :
  side = "bkt-red" ∨ side = "bkt-blue" →
  has_class "bkt-won"
    ("bkt-row " +:+ side +:+ " " +:+ (if won then "bkt-won" else "")) = won.
Proof. by intros [-> | ->]; destruct won. Qed.

Lemma eqb_true_iff (s t : string) : String.eqb s t = true ↔ s = t.
Proof. apply String.eqb_eq. Qed.

(** C4. Both playoff renderers mark an alliance as the winner exactly
    when the match's winning_alliance is that alliance's color: the
    class winner of a match card's alliance, and the class bkt-won of a
    bracket slot's row.  The scores play no part. *)
Theorem winner_mark_follows_field :
  (∀ highlightForeign c m,
     has_class "winner" (al_class (renderAlliance highlightForeign c m)) = true
     ↔ winning_alliance m = color_name c)
  ∧ (∀ teamsData playoffData setNum label,
       match slot teamsData playoffData setNum label with
       | SlotTBD _ _ => slot_match playoffData setNum = None
       | SlotMatch _ _ _ red_row blue_row _ =>
           ∃ m, slot_match playoffData setNum = Some m
                ∧ (has_class "bkt-won" (row_class red_row) = true
                   ↔ winning_alliance m = "red")
                ∧ (has_class "bkt-won" (row_class blue_row) = true
                   ↔ winning_alliance m = "blue")
       end).
Proof.
  split.
  - intros hf c m. unfold renderAlliance. cbn [al_class].
    rewrite winner_class. apply eqb_true_iff.
  - intros teams pd s label. unfold slot.
    destruct (slot_match pd s) as [m|]; [|done].
    unfold match_view. exists m. split; [done|]. cbn [row_class].
    rewrite !won_class by auto. split; apply eqb_true_iff.
Qed.

Example upset_marks_red :
  al_class (renderAlliance false Red upset) = "alliance red winner"
  ∧ al_class (renderAlliance false Blue upset) = "alliance blue "
  ∧ slot None [upset] (SetNum 1) "M1"
    = SlotMatch "bkt-slot  bkt-decided" "M1" None
        (RowView "bkt-row bkt-red bkt-won" (Some 1)
           [TeamSpan 9020 None; TeamSpan 254 None; TeamSpan 1678 None] "10")
        (RowView "bkt-row bkt-blue " (Some 8)
           [TeamSpan 118 None; TeamSpan 148 None; TeamSpan 2056 None] "50")
        "#1 vs #8".
Proof. repeat split; reflexivity. Qed.

(** ** The bracket tree *)

Lemma index_matches_snoc pd x :
  index_matches (pd ++ [x]) = index_match (index_matches pd) x.
Proof. unfold index_matches. by rewrite fold_left_app. Qed.

Lemma competes_set n m :
  competes (SetNum n) m = true ↔ String.eqb (bracket m) "final" = false ∧ set_number m = n.
Proof.
  cbn. rewrite andb_true_iff, negb_true_iff, Z.eqb_eq. done.
Qed.

Lemma not_competes_set n m :
  String.eqb (bracket m) "final" = true ∨ set_number m ≠ n → competes (SetNum n) m = false.
Proof.
  intros H. destruct (competes (SetNum n) m) eqn:Hc; [|done].
  apply competes_set in Hc as [Hb Hs]. destruct H; congruence.
Qed.

(** Adding a match that does not compete for a slot keeps its latest. *)
Lemma latest_for_skip pd s x o :
  competes s x = false → latest_for pd s o → latest_for (pd ++ [x]) s o.
Proof.
  intros Hx. destruct o as [m|]; cbn.
  - intros (Hin & Hc & Hmax). split; [set_solver|]. split; [done|].
    intros m' [Hm'|Hm']%elem_of_app; [by apply Hmax|].
    apply list_elem_of_singleton in Hm' as ->. congruence.
  - intros Hnone m' [Hm'|Hm']%elem_of_app; [by apply Hnone|].
    by apply list_elem_of_singleton in Hm' as ->.
Qed.

(** The index built by the forEach loop. *)
Lemma index_matches_latest pd :
  (∀ n, latest_for pd (SetNum n) ((index_matches pd).1 !! n))
  ∧ (index_matches pd).2 = filter (λ m, bracket m = "final") pd.
Proof.
  induction pd as [|x pd [IHset IHfin]] using rev_ind.
  - split; [|done]. intros n. cbn. rewrite lookup_empty. cbn. set_solver.
  - rewrite index_matches_snoc. destruct (index_matches pd) as [bySet finals].
    cbn [fst snd] in *. unfold index_match.
    rewrite filter_app. cbn [filter]. unfold filter at 2; cbn.
    destruct (String.eqb_spec (bracket x) "final") as [Hfin|Hfin]; cbn [fst snd].
    + split.
      * intros n. apply latest_for_skip; [|done].
        apply not_competes_set. left. by apply String.eqb_eq.
      * rewrite decide_True by done. by rewrite IHfin.
    + assert (Hnf : String.eqb (bracket x) "final" = false)
        by (by apply String.eqb_neq).
      assert (Hsnd : finals = filter (λ m, bracket m = "final") pd ++ [])
        by (by rewrite app_nil_r).
      rewrite decide_False by done.
      pose proof (IHset (set_number x)) as Hold.
      assert (Hother : ∀ (bySet' : gmap Z playoff_match) n, n ≠ set_number x →
                 bySet' !! n = bySet !! n → latest_for (pd ++ [x]) (SetNum n) (bySet' !! n)).
      { intros bySet' n Hn ->. apply latest_for_skip; [|done].
        apply not_competes_set. right. congruence. }
      assert (Hx : competes (SetNum (set_number x)) x = true)
        by (by apply competes_set).
      destruct (bySet !! set_number x) as [old|] eqn:Hlook.
      * destruct Hold as (Hin & Hc & Hmax).
        destruct (Z.ltb_spec (match_number old) (match_number x)) as [Hlt|Hge];
          cbn [fst snd]; (split; [|exact Hsnd]); intros n;
          destruct (decide (n = set_number x)) as [->|Hn].
        -- rewrite lookup_insert_eq. cbn. split; [set_solver|]. split; [done|].
           intros m' [Hm'|Hm']%elem_of_app Hcm'.
           ++ specialize (Hmax m' Hm' Hcm'). lia.
           ++ apply list_elem_of_singleton in Hm' as ->. lia.
        -- apply Hother; [done|]. by rewrite lookup_insert_ne.
        -- rewrite Hlook. cbn. split; [set_solver|]. split; [done|].
           intros m' [Hm'|Hm']%elem_of_app Hcm'; [by apply Hmax|].
           apply list_elem_of_singleton in Hm' as ->. lia.
        -- by apply Hother.
      * cbn [fst snd]. split; [|exact Hsnd]. intros n.
        destruct (decide (n = set_number x)) as [->|Hn].
        -- rewrite lookup_insert_eq. cbn. split; [set_solver|]. split; [done|].
           intros m' [Hm'|Hm']%elem_of_app Hcm'.
           ++ cbn in Hold. rewrite (Hold m' Hm') in Hcm'. done.
           ++ apply list_elem_of_singleton in Hm' as ->. lia.
        -- apply Hother; [done|]. by rewrite lookup_insert_ne.
Qed.

(** The reduce over the finals keeps a match of greatest match_number. *)
Lemma reduce_latest (fs : list playoff_match) (f : playoff_match) :
  let r := fold_left (λ a b, if match_number a <? match_number b then b else a) fs f in
  r ∈ f :: fs ∧ ∀ m', m' ∈ f :: fs → match_number m' <= match_number r.
Proof.
  revert f. induction fs as [|x fs IH]; intros f; cbn.
  - split; [apply list_elem_of_here|]. intros m' ->%list_elem_of_singleton. lia.
  - destruct (Z.ltb_spec (match_number f) (match_number x)) as [Hlt|Hge].
    + destruct (IH x) as [Hin Hmax]. split; [by apply list_elem_of_further|].
      intros m' [->|Hm']%elem_of_cons; [|by apply Hmax].
      pose proof (Hmax x (list_elem_of_here _ _)). lia.
    + destruct (IH f) as [Hin Hmax]. split.
      * apply elem_of_cons in Hin as [->|Hin]; [apply list_elem_of_here|].
        by do 2 apply list_elem_of_further.
      * intros m' [->|[->|Hm']%elem_of_cons]%elem_of_cons.
        -- apply Hmax, list_elem_of_here.
        -- pose proof (Hmax f (list_elem_of_here _ _)). lia.
        -- by apply Hmax, list_elem_of_further.
Qed.

Lemma slot_match_latest pd s : latest_for pd s (slot_match pd s).
Proof.
  unfold slot_match. destruct (index_matches_latest pd) as [Hset Hfin].
  destruct (index_matches pd) as [bySet finals]. cbn [fst snd] in *.
  destruct s as [n|]; [apply Hset|].
  assert (Hcomp : ∀ m, m ∈ finals ↔ m ∈ pd ∧ competes Final m = true).
  { intros m. rewrite Hfin, list_elem_of_filter. cbn. rewrite String.eqb_eq. tauto. }
  destruct finals as [|f fs]; cbn.
  - intros m' Hm'. destruct (competes Final m') eqn:Hc; [|done].
    exfalso. eapply not_elem_of_nil. apply Hcomp. eauto.
  - destruct (reduce_latest fs f) as [Hin Hmax]. cbn zeta in *.
    apply Hcomp in Hin as [Hin Hc]. split; [done|]. split; [done|].
    intros m' Hm' Hcm'. apply Hmax. apply Hcomp. done.
Qed.

(** C6, as far as it holds.  For a list with at least one match the tree
    has the fourteen slots of the fixed topology, and a slot shows the
    latest replay among the matches that compete for it: for a numbered
    slot the matches of that set_number outside the bracket 'final', for
    the grand final the matches of the bracket 'final'; it shows the one
    with the greatest match_number, and TBD when no match competes.  For
    the empty list there is the message and no slot. *)
Theorem bracket_shows_latest (teamsData : option (list team))
    (playoffData : list playoff_match) :
  (playoffData = [] →
   renderBracketTree teamsData (Some playoffData) = NoPlayoffMatches)
  ∧ (playoffData ≠ [] →
     slots (renderBracketTree teamsData (Some playoffData))
       = (λ sl, slot teamsData playoffData sl.1 sl.2) <$> topology
     ∧ ∀ s label,
         match slot_match playoffData s with
         | Some m =>
             slot teamsData playoffData s label
               = match_view teamsData m label (SET_DESCRIPTIONS s)
             ∧ m ∈ playoffData ∧ competes s m = true
             ∧ ∀ m', m' ∈ playoffData → competes s m' = true →
                     match_number m' <= match_number m
         | None =>
             slot teamsData playoffData s label = SlotTBD label (SET_DESCRIPTIONS s)
             ∧ ∀ m', m' ∈ playoffData → competes s m' = false
         end).
Proof.
  split; [by intros ->|]. intros Hne. split.
  - destruct playoffData; done.
  - intros s label. pose proof (slot_match_latest playoffData s) as Hl.
    unfold slot. destruct (slot_match playoffData s) as [m|]; cbn in Hl; split; tauto.
Qed.

Example replayed_slots :
  (match_number <$> slot_match replayed (SetNum 1)) = Some 2
  ∧ (bracket <$> slot_match replayed (SetNum 1)) = Some "upper"
  ∧ (match_number <$> slot_match replayed Final) = Some 3
  ∧ slot None replayed (SetNum 2) "M2" = SlotTBD "M2" "#4 vs #5"
  ∧ length (slots (renderBracketTree None (Some replayed))) = 14%nat.
Proof. repeat split; reflexivity. Qed.

Lemma bracket_shows_latest_witness :
  slots (renderBracketTree None (Some replayed))
    = (λ sl, slot None replayed sl.1 sl.2) <$> topology
  ∧ ∀ s label,
      match slot_match replayed s with
      | Some m =>
          slot None replayed s label = match_view None m label (SET_DESCRIPTIONS s)
          ∧ m ∈ replayed ∧ competes s m = true
          ∧ ∀ m', m' ∈ replayed → competes s m' = true →
                  match_number m' <= match_number m
      | None =>
          slot None replayed s label = SlotTBD label (SET_DESCRIPTIONS s)
          ∧ ∀ m', m' ∈ replayed → competes s m' = false
      end.
Proof.
  apply (proj2 (bracket_shows_latest None replayed)). discriminate.
Defined.

(** C6 fails on the empty list: renderBracketTree writes the message
    'No playoff matches found.' and no slot at all, so no slot shows
    TBD.  And a numbered slot passes over the matches of the bracket
    'final': in the sample the third final has set_number 1 and the
    greatest match_number of the list, and slot M1 shows the replay of
    the first set. *)
Lemma bracket_slot_exceptions :
  (renderBracketTree None (Some []) = NoPlayoffMatches
   ∧ slots (renderBracketTree None (Some [])) = []
   ∧ ∀ s, slot_match [] s = None)
  ∧ (Match "final" 1 3 ""
       (Alliance [9020; 254; 1678] [] [] (-1) 1 "101.5")
       (Alliance [118; 148; 2056] [] [] (-1) 8 "99.0") ∈ replayed
     ∧ (match_number <$> slot_match replayed (SetNum 1)) = Some 2).
Proof.
  split; [repeat split; by intros [n|]|].
  split; [|reflexivity].
  unfold replayed. do 4 apply list_elem_of_further. apply list_elem_of_here.
Qed.

End AppFacts.

(* ===================================================================== *)
(*  More properties of app.js                                            *)
(* ===================================================================== *)

Module ControllerFacts.
Import App Controller.

(** ** The rankings table under its column headers *)

Section Columns.
Variable toLowerCase : string → string.
Variable localeCompare : string → string → Z.

Local Notation "'cmp_of'" := (compare_teams toLowerCase localeCompare).
Local Notation "'sorted_state'" := (sortTeamsData toLowerCase localeCompare).

Lemma sortTeamsData_teams col asc ts :
  sorted_state (Rankings (Some ts) col asc)
  = Rankings (Some (sort_by (cmp_of col asc) ts)) col asc.
Proof. done. Qed.

(** In the output of the sort an earlier team may stand before a later
    one, for a comparator that is total and transitive. *)
Lemma sort_by_lookup {A} (cmp : A → A → Z) (l : list A) (i j : nat) (a b : A) :
  (∀ a b, before cmp a b ∨ before cmp b a) →
  (∀ a b c, before cmp a b → before cmp b c → before cmp a c) →
  (i < j)%nat → sort_by cmp l !! i = Some a → sort_by cmp l !! j = Some b →
  before cmp a b.
Proof.
  intros Htot Htrans. apply AppFacts.StronglySorted_lookup.
  by apply AppFacts.sort_by_sorted.
Qed.

(** X13. A click on a column header: without a teams list nothing
    changes; with one, the table keeps exactly its teams, the clicked
    column becomes the sort column, and the direction flips when the
    column was already the sort column and is ascending otherwise.  So
    two clicks on a new column leave it sorted descending, and two
    clicks on the current column restore its direction. *)
Theorem sortTeams_header (col : column) (st : rankings) :
  (teamsData st = None → sortTeams toLowerCase localeCompare col st = st)
  ∧ (∀ ts, teamsData st = Some ts →
       let st1 := sortTeams toLowerCase localeCompare col st in
       let st2 := sortTeams toLowerCase localeCompare col st1 in
       (∃ ts1, teamsData st1 = Some ts1 ∧ ts1 ≡ₚ ts)
       ∧ teamsSortCol st1 = col
       ∧ teamsSortAsc st1
         = (if decide (teamsSortCol st = col) then negb (teamsSortAsc st) else true)
       ∧ (∃ ts2, teamsData st2 = Some ts2 ∧ ts2 ≡ₚ ts)
       ∧ teamsSortCol st2 = col
       ∧ teamsSortAsc st2
         = (if decide (teamsSortCol st = col) then teamsSortAsc st else false)).
Proof.
  destruct st as [[ts0|] c asc]; cbn [teamsData teamsSortCol teamsSortAsc].
  2: { split; [done|]. by intros ts. }
  split; [done|]. intros ts [= ->]. cbn zeta.
  unfold sortTeams. cbn [teamsData teamsSortCol teamsSortAsc].
  destruct (decide (c = col)) as [->|Hne].
  - rewrite sortTeamsData_teams. cbn [teamsData teamsSortCol teamsSortAsc].
    rewrite decide_True by done. rewrite sortTeamsData_teams.
    cbn [teamsData teamsSortCol teamsSortAsc]. rewrite negb_involutive.
    repeat split; try done; eexists; (split; [done|]).
    + apply AppFacts.sort_by_perm.
    + by rewrite !AppFacts.sort_by_perm.
  - rewrite sortTeamsData_teams. cbn [teamsData teamsSortCol teamsSortAsc].
    rewrite decide_True by done. rewrite sortTeamsData_teams.
    cbn [teamsData teamsSortCol teamsSortAsc].
    repeat split; try done; eexists; (split; [done|]).
    + apply AppFacts.sort_by_perm.
    + by rewrite !AppFacts.sort_by_perm.
Qed.

(** Descending by rank: greater effective rank first, ties still by
    lowest team number. *)
Lemma by_rank_desc_before a b :
  before (cmp_of ColRank false) a b ↔
    effective_rank b < effective_rank a
    ∨ (effective_rank a = effective_rank b ∧ team_number a <= team_number b).
Proof.
  unfold before, compare_teams. cbn zeta.
  destruct (Z.eqb_spec (effective_rank a) (effective_rank b)); cbn; lia.
Qed.

(** X14. Sorted descending by rank, the table runs from the greatest
    effective rank to the least, teams of equal effective rank still in
    ascending team number; so with every numeric rank below 999 the
    teams without a rank stand first. *)
Theorem rank_sort_descending (ts : list team) :
  ∃ sorted,
    teamsData (sorted_state (Rankings (Some ts) ColRank false)) = Some sorted
    ∧ sorted ≡ₚ ts
    ∧ (∀ i j a b, (i < j)%nat → sorted !! i = Some a → sorted !! j = Some b →
         effective_rank b <= effective_rank a
         ∧ (effective_rank a = effective_rank b → team_number a <= team_number b))
    ∧ ((∀ t n, t ∈ ts → rank t = Some n → n < 999) →
       ∀ i j u r, sorted !! i = Some u → sorted !! j = Some r →
         rank u = None → is_Some (rank r) → (i < j)%nat).
Proof.
  exists (sort_by (cmp_of ColRank false) ts). split; [done|].
  split; [apply AppFacts.sort_by_perm|].
  assert (Hord : ∀ i j a b, (i < j)%nat →
            sort_by (cmp_of ColRank false) ts !! i = Some a →
            sort_by (cmp_of ColRank false) ts !! j = Some b →
            effective_rank b <= effective_rank a
            ∧ (effective_rank a = effective_rank b → team_number a <= team_number b)).
  { intros i j a b Hij Hi Hj.
    assert (H : before (cmp_of ColRank false) a b).
    { eapply sort_by_lookup; [| |exact Hij|exact Hi|exact Hj].
      - intros x y. rewrite !by_rank_desc_before. lia.
      - intros x y z. rewrite !by_rank_desc_before. lia. }
    apply by_rank_desc_before in H. lia. }
  split; [exact Hord|].
  intros Hlow i j u r Hi Hj Hu [n Hr].
  assert (Hn : n < 999).
  { apply (Hlow r); [|done]. rewrite <- (AppFacts.sort_by_perm (cmp_of ColRank false) ts).
    by eapply list_elem_of_lookup_2. }
  destruct (Nat.lt_trichotomy i j) as [?|[->|Hlt]]; [done|congruence|].
  destruct (Hord j i r u Hlt Hj Hi) as [Hle _].
  unfold effective_rank in Hle. rewrite Hu, Hr in Hle. cbn in Hle. lia.
Qed.

(** X15. Sorted by team number, the table is in ascending team number
    when the direction is ascending and in descending team number when
    it is descending. *)
Theorem team_number_sort (asc : bool) (ts : list team) :
  ∃ sorted,
    teamsData (sorted_state (Rankings (Some ts) ColTeamNumber asc)) = Some sorted
    ∧ sorted ≡ₚ ts
    ∧ ∀ i j a b, (i < j)%nat → sorted !! i = Some a → sorted !! j = Some b →
        if asc then team_number a <= team_number b else team_number b <= team_number a.
Proof.
  exists (sort_by (cmp_of ColTeamNumber asc) ts). split; [done|].
  split; [apply AppFacts.sort_by_perm|].
  intros i j a b Hij Hi Hj.
  assert (H : before (cmp_of ColTeamNumber asc) a b).
  { eapply sort_by_lookup; [| |exact Hij|exact Hi|exact Hj].
    - intros x y. unfold before, compare_teams. destruct asc; lia.
    - intros x y z. unfold before, compare_teams. destruct asc; lia. }
  unfold before, compare_teams in H. destruct asc; lia.
Qed.

(** The record column: the better record first when ascending. *)
Lemma by_record_before asc a b :
  before (cmp_of ColRecord asc) a b ↔
    if asc
    then wins b - losses b < wins a - losses a
         ∨ (wins a - losses a = wins b - losses b ∧ wins b <= wins a)
    else wins a - losses a < wins b - losses b
         ∨ (wins a - losses a = wins b - losses b ∧ wins a <= wins b).
Proof.
  unfold before, compare_teams. cbn zeta.
  destruct (Z.eqb_spec (wins a - losses a) (wins b - losses b)), asc; cbn; lia.
Qed.

(** X16. Sorted by record in the first direction a click gives
    (ascending), the table runs from the best record to the worst: the
    greater difference of wins and losses first, and among equal
    differences the team with more wins first.  The second direction is
    the reverse order. *)
Theorem record_sort (asc : bool) (ts : list team) :
  ∃ sorted,
    teamsData (sorted_state (Rankings (Some ts) ColRecord asc)) = Some sorted
    ∧ sorted ≡ₚ ts
    ∧ ∀ i j a b, (i < j)%nat → sorted !! i = Some a → sorted !! j = Some b →
        if asc
        then wins b - losses b <= wins a - losses a
             ∧ (wins a - losses a = wins b - losses b → wins b <= wins a)
        else wins a - losses a <= wins b - losses b
             ∧ (wins a - losses a = wins b - losses b → wins a <= wins b).
Proof.
  exists (sort_by (cmp_of ColRecord asc) ts). split; [done|].
  split; [apply AppFacts.sort_by_perm|].
  intros i j a b Hij Hi Hj.
  assert (H : before (cmp_of ColRecord asc) a b).
  { eapply sort_by_lookup; [| |exact Hij|exact Hi|exact Hj].
    - intros x y. rewrite !by_record_before. destruct asc; lia.
    - intros x y z. rewrite !by_record_before. destruct asc; lia. }
  apply by_record_before in H. destruct asc; lia.
Qed.

End Columns.

Lemma sortTeams_header_witness :
  let st := Rankings (Some sample_teams) ColRank true in
  let st1 := sortTeams id (λ _ _, 0) ColTeamNumber st in
  let st2 := sortTeams id (λ _ _, 0) ColTeamNumber st1 in
  (∃ ts1, teamsData st1 = Some ts1 ∧ ts1 ≡ₚ sample_teams)
  ∧ teamsSortCol st1 = ColTeamNumber
  ∧ teamsSortAsc st1 = (if decide (ColRank = ColTeamNumber) then negb true else true)
  ∧ (∃ ts2, teamsData st2 = Some ts2 ∧ ts2 ≡ₚ sample_teams)
  ∧ teamsSortCol st2 = ColTeamNumber
  ∧ teamsSortAsc st2 = (if decide (ColRank = ColTeamNumber) then true else false).
Proof.
  apply (proj2 (sortTeams_header id (λ _ _, 0) ColTeamNumber
                  (Rankings (Some sample_teams) ColRank true)) sample_teams).
  reflexivity.
Defined.

Lemma rank_sort_descending_witness :
  ∃ sorted,
    teamsData (sortTeamsData id (λ _ _, 0) (Rankings (Some sample_teams) ColRank false))
      = Some sorted
    ∧ ∀ i j u r, sorted !! i = Some u → sorted !! j = Some r →
        rank u = None → is_Some (rank r) → (i < j)%nat.
Proof.
  destruct (rank_sort_descending id (λ _ _, 0) sample_teams) as (sorted & Hs & _ & _ & Hfirst).
  exists sorted. split; [exact Hs|]. apply Hfirst.
  intros t n Ht Hn. unfold sample_teams in Ht.
  repeat (apply elem_of_cons in Ht as [->|Ht]; [cbn in Hn; inversion Hn; lia|]).
  by apply elem_of_nil in Ht.
Defined.

Example sort_samples :
  team_number <$> default [] (teamsData (sortTeamsData id (λ _ _, 0)
                                           (Rankings (Some sample_teams) ColRank false)))
  = [118; 254; 9020; 1678]
  ∧ team_number <$> default [] (teamsData (sortTeamsData id (λ _ _, 0)
                                             (Rankings (Some sample_teams) ColTeamNumber false)))
    = [9020; 1678; 254; 118]
  ∧ team_number <$> default [] (teamsData (sortTeamsData id (λ _ _, 0)
                                             (Rankings (Some sample_teams) ColRecord true)))
    = [1678; 9020; 254; 118].
Proof. repeat split; reflexivity. Qed.

(** ** The cache key of match connections *)

Lemma app_cons (a : Ascii.ascii) (s t : string) : String a s +:+ t = String a (s +:+ t).
Proof. done. Qed.

Lemma app_nil_l (t : string) : "" +:+ t = t.
Proof. done. Qed.

Lemma occurs_app c s t : occurs c (s +:+ t) = occurs c s || occurs c t.
Proof.
  induction s as [|a s IH]; [done|].
  rewrite app_cons. cbn. rewrite IH. by rewrite orb_assoc.
Qed.

(** The decimal digits are the only characters that printing a natural
    number adds. *)
Lemma pretty_N_go_occurs c x s :
  (∀ d, Ascii.eqb (pretty_N_char d) c = false) →
  occurs c s = false → occurs c (pretty_N_go x s) = false.
Proof.
  intros Hc. revert s. induction (N.lt_wf_0 x) as [x _ IH]; intros s Hs.
  assert (x = 0 ∨ 0 < x)%N as [->|Hx] by lia; [by rewrite pretty_N_go_0|].
  rewrite pretty_N_go_step by done. apply IH; [by apply N.div_lt|].
  cbn. by rewrite Hc, Hs.
Qed.

Lemma pretty_N_go_nonempty x s : s ≠ "" → pretty_N_go x s ≠ "".
Proof.
  revert s. induction (N.lt_wf_0 x) as [x _ IH]; intros s Hs.
  assert (x = 0 ∨ 0 < x)%N as [->|Hx] by lia; [by rewrite pretty_N_go_0|].
  rewrite pretty_N_go_step by done. apply IH; [by apply N.div_lt|done].
Qed.

Lemma pretty_Z_occurs c (z : Z) :
  (∀ d, Ascii.eqb (pretty_N_char d) c = false) →
  Ascii.eqb "-" c = false →
  occurs c (pretty z) = false.
Proof.
  intros Hc Hdash.
  assert (HN : ∀ p, occurs c (pretty (N.pos p)) = false).
  { intros p. unfold pretty, pretty_N. rewrite decide_False by done.
    by apply pretty_N_go_occurs. }
  destruct z as [|p|p]; [| apply HN |].
  - pose proof (Hc 0%N) as H0. change (pretty_N_char 0) with "0"%char in H0.
    change (pretty 0) with "0". cbn [occurs]. by rewrite H0.
  - change (pretty (Z.neg p)) with ("-" +:+ pretty (N.pos p)).
    rewrite occurs_app, HN. cbn [occurs]. by rewrite Hdash.
Qed.

Lemma pretty_Z_nonempty (z : Z) : pretty z ≠ "".
Proof.
  assert (HN : ∀ p, pretty (N.pos p) ≠ "").
  { intros p. unfold pretty, pretty_N. rewrite decide_False by done.
    rewrite pretty_N_go_step by lia. by apply pretty_N_go_nonempty. }
  destruct z as [|p|p]; [done|apply HN|].
  change (pretty (Z.neg p)) with ("-" +:+ pretty (N.pos p)). done.
Qed.

Lemma digit_is_not (c : Ascii.ascii) :
  c = ","%char ∨ c = "|"%char → ∀ d, Ascii.eqb (pretty_N_char d) c = false.
Proof.
  intros [-> | ->] d; unfold pretty_N_char; by repeat case_match.
Qed.

(** A number printed has no comma and no bar. *)
Lemma printed_number (z : Z) :
  pretty z ≠ "" ∧ occurs "," (pretty z) = false ∧ occurs "|" (pretty z) = false.
Proof.
  split; [apply pretty_Z_nonempty|].
  split; apply pretty_Z_occurs; auto using digit_is_not.
Qed.

(** Two strings without [c], each followed by nothing or by [c] and
    more, are equal when the whole strings are. *)
Lemma split_at c (x y r1 r2 : string) :
  occurs c x = false → occurs c y = false →
  (r1 = "" ∨ ∃ t, r1 = String c t) → (r2 = "" ∨ ∃ t, r2 = String c t) →
  x +:+ r1 = y +:+ r2 → x = y ∧ r1 = r2.
Proof.
  revert y. induction x as [|a x IH]; intros [|b y] Hx Hy H1 H2 Heq.
  - done.
  - rewrite app_nil_l, app_cons in Heq. cbn in Hy. apply orb_false_iff in Hy as [Hb _].
    destruct H1 as [->|[t ->]]; [done|]. inversion Heq; subst.
    by rewrite Ascii.eqb_refl in Hb.
  - rewrite app_nil_l, app_cons in Heq. cbn in Hx. apply orb_false_iff in Hx as [Ha _].
    destruct H2 as [->|[t ->]]; [done|]. inversion Heq; subst.
    by rewrite Ascii.eqb_refl in Ha.
  - rewrite !app_cons in Heq. inversion Heq; subst.
    cbn in Hx, Hy. apply orb_false_iff in Hx as [_ Hx]. apply orb_false_iff in Hy as [_ Hy].
    destruct (IH y Hx Hy H1 H2) as [-> ->]; done.
Qed.

Lemma concat_cons (sep x : string) (l : list string) :
  String.concat sep (x :: l)
  = x +:+ match l with [] => "" | _ => sep +:+ String.concat sep l end.
Proof.
  destruct l; cbn; [|done].
  induction x as [|a x IH]; [done|]. rewrite app_cons. by rewrite <- IH.
Qed.

(** Joining with commas loses nothing when no part is empty or has a comma. *)
Lemma join_inj (l1 l2 : list string) :
  Forall (λ x, x ≠ "" ∧ occurs "," x = false) l1 →
  Forall (λ x, x ≠ "" ∧ occurs "," x = false) l2 →
  String.concat "," l1 = String.concat "," l2 → l1 = l2.
Proof.
  intros H1. revert l2. induction H1 as [|x l1 [Hx Hcx] Hl1 IH]; intros l2 H2 Heq.
  - destruct H2 as [|y l2 [Hy _] _]; [done|].
    rewrite concat_cons in Heq. cbn in Heq. destruct y; [done|discriminate].
  - destruct H2 as [|y l2 [Hy Hcy] Hl2].
    { rewrite concat_cons in Heq. cbn in Heq. destruct x; [done|discriminate]. }
    rewrite !concat_cons in Heq.
    apply (split_at ","%char) in Heq as [-> Hrest]; [|done|done|..].
    + f_equal. destruct l1 as [|x1 l1], l2 as [|y1 l2]; try done.
      apply IH; [done|]. change ("," +:+ ?s) with (String ","%char s) in Hrest.
      by inversion Hrest.
    + destruct l1; [by left|right; eexists; reflexivity].
    + destruct l2; [by left|right; eexists; reflexivity].
Qed.

Lemma join_occurs c (l : list string) :
  Ascii.eqb "," c = false →
  Forall (λ x, occurs c x = false) l → occurs c (String.concat "," l) = false.
Proof.
  intros Hc. induction 1 as [|x l Hx Hl IH]; [done|].
  rewrite concat_cons, occurs_app, Hx. destruct l; [done|].
  rewrite occurs_app, IH. cbn [occurs]. by rewrite Hc.
Qed.

(** The numeric comparator [(a, b) => a - b] orders as [<=]. *)
Lemma by_number_total (a b : Z) :
  before (λ a b, a - b) a b ∨ before (λ a b, a - b) b a.
Proof. unfold before. lia. Qed.

Lemma by_number_trans (a b c : Z) :
  before (λ a b, a - b) a b → before (λ a b, a - b) b c → before (λ a b, a - b) a c.
Proof. unfold before. lia. Qed.

#[local] Instance by_number_antisym : AntiSymm (=) (before (λ a b : Z, a - b)).
Proof. intros a b. unfold before. lia. Qed.

(** Sorting numbers forgets the order they came in, and nothing else. *)
Lemma sort_numbers_perm (l1 l2 : list Z) :
  sort_by (λ a b, a - b) l1 = sort_by (λ a b, a - b) l2 ↔ l1 ≡ₚ l2.
Proof.
  split.
  - intros Heq. rewrite <- (AppFacts.sort_by_perm (λ a b, a - b) l1), Heq.
    apply AppFacts.sort_by_perm.
  - intros Hp. apply (StronglySorted_unique (before (λ a b : Z, a - b))).
    + apply AppFacts.sort_by_sorted; [apply by_number_total|apply by_number_trans].
    + apply AppFacts.sort_by_sorted; [apply by_number_total|apply by_number_trans].
    + by rewrite !AppFacts.sort_by_perm.
Qed.

(** X17. Two calls get the same connections cache key exactly when they
    name the same teams, in any order and with the same repetitions, and
    the same range: the key forgets the order of the team numbers and
    nothing else. *)
Theorem connCacheKey_identifies (l1 l2 : list Z) (a1 a2 : bool) :
  _connCacheKey l1 a1 = _connCacheKey l2 a2 ↔ l1 ≡ₚ l2 ∧ a1 = a2.
Proof.
  unfold _connCacheKey. split.
  - intros Heq.
    assert (Hparts : ∀ l : list Z,
               Forall (λ x, x ≠ "" ∧ occurs "," x = false) (pretty <$> l)
               ∧ occurs "|" (String.concat "," (pretty <$> l)) = false).
    { intros l. split.
      - apply Forall_fmap, Forall_forall. intros z _. cbn.
        destruct (printed_number z) as (? & ? & _). done.
      - apply join_occurs; [done|]. apply Forall_fmap, Forall_forall. intros z _.
        cbn. apply printed_number. }
    apply (split_at "|"%char) in Heq as [Hjoin Hflag];
      [|apply Hparts|apply Hparts|right; eexists; reflexivity..].
    split.
    + apply sort_numbers_perm. apply (inj (fmap pretty)).
      apply join_inj; [apply Hparts..|done].
    + by destruct a1, a2.
  - intros [Hp ->]. by apply sort_numbers_perm in Hp as ->.
Qed.

Example connCacheKey_sample :
  _connCacheKey [9020; 254; 1678] false = "254,1678,9020|0"
  ∧ _connCacheKey [1678; 9020; 254] false = "254,1678,9020|0"
  ∧ _connCacheKey [] true = "|1".
Proof. repeat split; reflexivity. Qed.

(** ** HTML escaping *)

Lemma app_assoc_str (s t u : string) : (s +:+ t) +:+ u = s +:+ (t +:+ u).
Proof. induction s as [|a s IH]; [done|]. by rewrite !app_cons, IH. Qed.

Lemma replace_char_app c r s t :
  replace_char c r (s +:+ t) = replace_char c r s +:+ replace_char c r t.
Proof.
  induction s as [|a s IH]; [done|].
  rewrite app_cons. cbn [replace_char]. by rewrite IH, app_assoc_str.
Qed.

(** The three passes on one character. *)
Lemma esc_char (a : Ascii.ascii) :
  replace_char ">" "&gt;"
    (replace_char "<" "&lt;" (replace_char "&" "&amp;" (String a ""))) = escape_char a.
Proof.
  destruct (Ascii.eqb a "&") eqn:H1.
  { apply Ascii.eqb_eq in H1 as ->. reflexivity. }
  destruct (Ascii.eqb a "<") eqn:H2.
  { apply Ascii.eqb_eq in H2 as ->. reflexivity. }
  destruct (Ascii.eqb a ">") eqn:H3.
  { apply Ascii.eqb_eq in H3 as ->. reflexivity. }
  unfold escape_char. rewrite H1, H2, H3.
  cbn [replace_char]. rewrite H1.
  change (String a "" +:+ "") with (String a "").
  cbn [replace_char]. rewrite H2.
  change (String a "" +:+ "") with (String a "").
  cbn [replace_char]. rewrite H3. done.
Qed.

Lemma escape_char_occurs (a : Ascii.ascii) :
  occurs "<" (escape_char a) = false ∧ occurs ">" (escape_char a) = false.
Proof.
  unfold escape_char.
  destruct (Ascii.eqb a "&") eqn:H1; [done|].
  destruct (Ascii.eqb a "<") eqn:H2; [done|].
  destruct (Ascii.eqb a ">") eqn:H3; [done|].
  cbn [occurs]. by rewrite H2, H3.
Qed.

Lemma esc_pass (s : string) : _esc (Some s) = escape_chars s.
Proof.
  unfold _esc. change (default "" (Some s)) with s.
  induction s as [|a s IH]; [done|].
  change (String a s) with (String a "" +:+ s) at 1.
  rewrite !replace_char_app, esc_char, IH. reflexivity.
Qed.

Lemma escape_chars_occurs (s : string) :
  occurs "<" (escape_chars s) = false ∧ occurs ">" (escape_chars s) = false.
Proof.
  induction s as [|a s [IH1 IH2]]; [done|]. cbn [escape_chars].
  destruct (escape_char_occurs a) as [H1 H2].
  by rewrite !occurs_app, H1, H2, IH1, IH2.
Qed.

Lemma escape_chars_plain (s : string) :
  occurs "&" s = false → occurs "<" s = false → occurs ">" s = false →
  escape_chars s = s.
Proof.
  induction s as [|a s IH]; [done|].
  cbn [occurs]. intros [Ha1 Hs1]%orb_false_iff [Ha2 Hs2]%orb_false_iff
                       [Ha3 Hs3]%orb_false_iff.
  cbn [escape_chars]. unfold escape_char. rewrite Ha1, Ha2, Ha3.
  by rewrite app_cons, app_nil_l, IH.
Qed.

(** X18. The three replacements of _esc come to one pass over the text
    in which each ampersand, less-than and greater-than sign is replaced
    by its entity and every other character is kept: no entity is escaped
    a second time.  So the result has no less-than and no greater-than
    sign, a text without the three characters is returned as it is, and
    a missing text gives the empty string. *)
Theorem esc_is_one_pass (s : string) :
  _esc (Some s) = escape_chars s
  ∧ occurs "<" (_esc (Some s)) = false
  ∧ occurs ">" (_esc (Some s)) = false
  ∧ (occurs "&" s = false → occurs "<" s = false → occurs ">" s = false →
     _esc (Some s) = s)
  ∧ _esc None = "".
Proof.
  rewrite esc_pass. destruct (escape_chars_occurs s) as [H1 H2].
  repeat split; try done. apply escape_chars_plain.
Qed.

Lemma esc_is_one_pass_witness :
  _esc (Some "Team 9020") = escape_chars "Team 9020"
  ∧ occurs "<" (_esc (Some "Team 9020")) = false
  ∧ occurs ">" (_esc (Some "Team 9020")) = false
  ∧ _esc (Some "Team 9020") = "Team 9020".
Proof.
  destruct (esc_is_one_pass "Team 9020") as (H1 & H2 & H3 & H4 & _).
  split; [exact H1|]. split; [exact H2|]. split; [exact H3|].
  apply H4; reflexivity.
Defined.

Example esc_sample :
  _esc (Some "R&D <b>bots</b>") = "R&amp;D &lt;b&gt;bots&lt;/b&gt;"
  ∧ _esc (Some "&lt;") = "&amp;lt;".
Proof. split; reflexivity. Qed.

(** ** The comparison selection *)

Lemma updateCompareBar_ok (sel : list string) (shown : bool) (text : string) :
  NoDup sel → (length sel ≤ 6)%nat →
  selection_ok (updateCompareBar (Compare sel shown text))
  ∧ compareSelection (updateCompareBar (Compare sel shown text)) = sel.
Proof.
  intros Hnd Hlen. unfold updateCompareBar, selection_ok.
  cbn [compareSelection compare_bar_shown compare_bar_count].
  destruct (Z.ltb_spec 0 (Z.of_nat (length sel)));
    cbn [compareSelection compare_bar_shown compare_bar_count];
    (split; [|done]); (split; [done|]); (split; [done|]); split; try done.
  - split; [|done]. intros _ ->. cbn in *. lia.
  - split; [done|]. intros Hne. destruct sel; [done|cbn in *; lia].
Qed.

Lemma toggle_selection (k : string) (st : compare) :
  compareSelection (toggleCompareTeam k st)
  = if decide (k ∈ compareSelection st) then filter (λ k', k' ≠ k) (compareSelection st)
    else if 6 <=? Z.of_nat (length (compareSelection st)) then compareSelection st
    else compareSelection st ++ [k].
Proof.
  unfold toggleCompareTeam, updateCompareBar.
  repeat case_decide; repeat case_match; done.
Qed.

(** X19. The selection never holds a team twice nor more than six teams,
    and the compare bar is shown exactly when a team is selected, with
    the number of selected teams as its count: toggleCompareTeam and
    clearCompareSelection keep all of this. *)
Theorem selection_stays_ok (k : string) (st : compare) :
  selection_ok st →
  selection_ok (toggleCompareTeam k st) ∧ selection_ok (clearCompareSelection st)
  ∧ compareSelection (clearCompareSelection st) = []
  ∧ compare_bar_shown (clearCompareSelection st) = false.
Proof.
  intros Hok. pose proof Hok as (Hnd & Hlen & Hbar & Htext).
  split; [|split; [|done]].
  - unfold toggleCompareTeam. case_decide as Hin.
    + apply updateCompareBar_ok.
      * by apply NoDup_filter.
      * pose proof (length_filter (λ k', k' ≠ k) (compareSelection st)). lia.
    + destruct (Z.leb_spec 6 (Z.of_nat (length (compareSelection st)))); [done|].
      apply updateCompareBar_ok.
      * apply NoDup_app. split; [done|]. split; [|apply NoDup_singleton].
        intros x Hx ->%list_elem_of_singleton. done.
      * rewrite length_app. cbn. lia.
  - apply (updateCompareBar_ok [] _ _); [constructor|cbn; lia].
Qed.

Lemma two_selected_ok : selection_ok two_selected.
Proof.
  unfold selection_ok, two_selected. cbn.
  split; [compute_done|]. split; [lia|]. done.
Qed.

Lemma selection_stays_ok_witness :
  selection_ok (toggleCompareTeam "frc1678" two_selected)
  ∧ selection_ok (clearCompareSelection two_selected)
  ∧ compareSelection (clearCompareSelection two_selected) = []
  ∧ compare_bar_shown (clearCompareSelection two_selected) = false.
Proof.
  apply (selection_stays_ok "frc1678" two_selected). apply two_selected_ok.
Defined.

Lemma filter_others (k : string) (l : list string) :
  k ∉ l → filter (λ k', k' ≠ k) l = l.
Proof.
  induction l as [|x l IH]; [done|].
  intros [Hx Hl]%not_elem_of_cons. rewrite filter_cons, decide_True by done.
  by rewrite IH.
Qed.

(** X20. What a toggle does to the selection: a selected team is taken
    out and the others stay; a team that is not selected is added at
    the end when fewer than six are selected, and the whole state stays
    as it is when six are.  Toggling an added team again gives the
    selection back. *)
Theorem toggle_selects_and_deselects (k : string) (st : compare) :
  let sel := compareSelection st in
  let sel' := compareSelection (toggleCompareTeam k st) in
  (k ∈ sel → (k ∉ sel') ∧ ∀ k', k' ≠ k → (k' ∈ sel' ↔ k' ∈ sel))
  ∧ (k ∉ sel → (length sel < 6)%nat →
     sel' = sel ++ [k]
     ∧ compareSelection (toggleCompareTeam k (toggleCompareTeam k st)) = sel)
  ∧ (k ∉ sel → (6 ≤ length sel)%nat → toggleCompareTeam k st = st).
Proof.
  cbn zeta. split; [|split].
  - intros Hin. rewrite toggle_selection, decide_True by done. split.
    + rewrite list_elem_of_filter. tauto.
    + intros k' Hk'. rewrite list_elem_of_filter. tauto.
  - intros Hout Hlen.
    assert (Hroom : (6 <=? Z.of_nat (length (compareSelection st))) = false)
      by (apply Z.leb_gt; lia).
    assert (Hfirst : compareSelection (toggleCompareTeam k st) = compareSelection st ++ [k])
      by (by rewrite toggle_selection, decide_False, Hroom).
    split; [done|].
    rewrite toggle_selection, Hfirst.
    rewrite decide_True by (apply elem_of_app; right; apply list_elem_of_here).
    rewrite filter_app, filter_others by done.
    rewrite filter_cons, decide_False by (intros Hkk; by apply Hkk).
    by rewrite filter_nil, app_nil_r.
  - intros Hout Hlen. unfold toggleCompareTeam. rewrite decide_False by done.
    destruct (Z.leb_spec 6 (Z.of_nat (length (compareSelection st)))); [done|lia].
Qed.

Lemma toggle_selects_and_deselects_witness :
  (("frc254" ∉ compareSelection (toggleCompareTeam "frc254" two_selected))
   ∧ ∀ k', k' ≠ "frc254" →
       (k' ∈ compareSelection (toggleCompareTeam "frc254" two_selected)
        ↔ k' ∈ compareSelection two_selected))
  ∧ (compareSelection (toggleCompareTeam "frc1678" two_selected)
       = compareSelection two_selected ++ ["frc1678"]
     ∧ compareSelection (toggleCompareTeam "frc1678" (toggleCompareTeam "frc1678" two_selected))
       = compareSelection two_selected).
Proof.
  split.
  - apply (proj1 (toggle_selects_and_deselects "frc254" two_selected)).
    compute_done.
  - apply (proj1 (proj2 (toggle_selects_and_deselects "frc1678" two_selected))).
    + compute_done.
    + cbn. lia.
Defined.

(** X21. A comparison launched from the selection asks for at least two
    and at most six different teams, the selected ones in the order they
    were selected, and only when an event is loaded; with fewer than two
    teams or no event nothing is launched. *)
Theorem launch_asks_for_two_to_six (currentEvent : option string) (st : compare) :
  selection_ok st →
  (∀ keys, launchCompareFromSelection currentEvent st = Some keys →
           keys = compareSelection st ∧ NoDup keys
           ∧ (2 ≤ length keys ≤ 6)%nat ∧ is_Some currentEvent)
  ∧ (launchCompareFromSelection currentEvent st = None ↔
     (length (compareSelection st) < 2)%nat ∨ currentEvent = None).
Proof.
  intros (Hnd & Hlen & _). unfold launchCompareFromSelection.
  destruct (Z.ltb_spec (Z.of_nat (length (compareSelection st))) 2) as [Hfew|Hmany];
    cbn [orb].
  - split; [done|]. split; [left; lia|done].
  - destruct currentEvent as [ev|]; cbn.
    + split.
      * intros keys [= <-]. repeat split; try done; lia.
      * split; [done|]. intros [?|?]; [lia|done].
    + split; [done|]. split; [by right|done].
Qed.

Lemma launch_asks_for_two_to_six_witness :
  (∀ keys, launchCompareFromSelection (Some "2026tuis") two_selected = Some keys →
           keys = compareSelection two_selected ∧ NoDup keys
           ∧ (2 ≤ length keys ≤ 6)%nat ∧ is_Some (Some "2026tuis"))
  ∧ (launchCompareFromSelection (Some "2026tuis") two_selected = None ↔
     (length (compareSelection two_selected) < 2)%nat ∨ Some "2026tuis" = None).
Proof.
  apply (launch_asks_for_two_to_six (Some "2026tuis") two_selected). apply two_selected_ok.
Defined.

Example launch_sample :
  launchCompareFromSelection (Some "2026tuis") two_selected = Some ["frc9020"; "frc254"]
  ∧ launchCompareFromSelection (Some "2026tuis")
      (toggleCompareTeam "frc254" two_selected) = None
  ∧ compare_bar_count (toggleCompareTeam "frc254" two_selected) = "1 team selected".
Proof. repeat split; reflexivity. Qed.

(** ** Playoff match cards by round *)

(** The comparator of filterRound orders by set_number, then match_number. *)
Lemma compare_matches_before a b :
  before compare_matches a b ↔
    set_number (fields a) < set_number (fields b)
    ∨ (set_number (fields a) = set_number (fields b)
       ∧ match_number (fields a) <= match_number (fields b)).
Proof.
  unfold before, compare_matches. cbn zeta.
  destruct (Z.eqb_spec (set_number (fields a) - set_number (fields b)) 0); cbn; lia.
Qed.

Lemma in_round_iff cb r m :
  in_round cb r m = true ↔
    round m = r ∧ (cb = "all" ∨ bracket (fields m) = cb).
Proof.
  unfold in_round. rewrite andb_true_iff, orb_true_iff, Z.eqb_eq, !String.eqb_eq.
  done.
Qed.

Lemma filterRound_cards highlightForeign cb r pd :
  round_matches cb r pd ≠ [] →
  filterRound highlightForeign cb r pd
  = Cards (series highlightForeign <$> round_matches cb r pd).
Proof.
  unfold filterRound. by destruct (round_matches cb r pd).
Qed.

(** X22. The cards of a round are exactly the matches of that round in
    the current bracket (every bracket for 'all'), each once for each
    time it is in the list, ordered by set_number and within a set by
    match_number; the message for an empty bracket is written exactly
    when there is no such match. *)
Theorem round_cards (highlightForeign : bool) (currentBracket : string) (r : Z)
    (playoffData : list round_match) :
  let ms := round_matches currentBracket r playoffData in
  ms ≡ₚ filter (λ m, in_round currentBracket r m = true) playoffData
  ∧ (∀ m, m ∈ ms ↔
          m ∈ playoffData ∧ round m = r
          ∧ (currentBracket = "all" ∨ bracket (fields m) = currentBracket))
  ∧ (∀ i j a b, (i < j)%nat → ms !! i = Some a → ms !! j = Some b →
       set_number (fields a) <= set_number (fields b)
       ∧ (set_number (fields a) = set_number (fields b) →
          match_number (fields a) <= match_number (fields b)))
  ∧ (filterRound highlightForeign currentBracket r playoffData = NoMatchesInBracket
     ↔ ms = [])
  ∧ (ms ≠ [] →
     filterRound highlightForeign currentBracket r playoffData
     = Cards (series highlightForeign <$> ms)).
Proof.
  cbn zeta. unfold round_matches.
  set (kept := filter (λ m, in_round currentBracket r m = true) playoffData).
  assert (Hperm : sort_by compare_matches kept ≡ₚ kept) by apply AppFacts.sort_by_perm.
  split; [done|]. split; [|split; [|split]].
  - intros m. rewrite Hperm. unfold kept. rewrite list_elem_of_filter, in_round_iff. tauto.
  - intros i j a b Hij Hi Hj.
    assert (H : before compare_matches a b).
    { eapply sort_by_lookup; [| |exact Hij|exact Hi|exact Hj].
      - intros x y. rewrite !compare_matches_before. lia.
      - intros x y z. rewrite !compare_matches_before. lia. }
    apply compare_matches_before in H. lia.
  - unfold filterRound, round_matches. fold kept.
    destruct (sort_by compare_matches kept); done.
  - unfold filterRound, round_matches. fold kept.
    destruct (sort_by compare_matches kept); done.
Qed.

Lemma round_cards_witness :
  filterRound false "all" 1 some_rounds
  = Cards (series false <$> round_matches "all" 1 some_rounds).
Proof.
  apply (round_cards false "all" 1 some_rounds). vm_compute. discriminate.
Defined.

Example round_cards_sample :
  (λ m, (set_number (fields m), match_number (fields m))) <$> round_matches "all" 1 some_rounds
  = [(1, 1); (1, 2); (2, 1)]
  ∧ series_title <$> match filterRound false "upper" 1 some_rounds with
                     | Cards cards => cards
                     | _ => []
                     end
    = ["Match 1"; "Match 1 (Replay 2)"; "Match 2"]
  ∧ filterRound false "lower" 1 some_rounds = NoMatchesInBracket.
Proof. repeat split; reflexivity. Qed.

Lemma bracket_matches_iff cb pd m :
  m ∈ bracket_matches cb pd ↔ m ∈ pd ∧ (cb = "all" ∨ bracket (fields m) = cb).
Proof.
  unfold bracket_matches. destruct (String.eqb_spec cb "all") as [->|Hne].
  - tauto.
  - rewrite list_elem_of_filter. tauto.
Qed.

Lemma roundsPresent_iff cb pd r :
  r ∈ roundsPresent cb pd ↔
    r ∈ roundOrder ∧ ∃ m, m ∈ pd ∧ in_round cb r m = true.
Proof.
  unfold roundsPresent. rewrite list_elem_of_filter, existsb_exists.
  setoid_rewrite <- list_elem_of_In. setoid_rewrite bracket_matches_iff.
  setoid_rewrite in_round_iff. setoid_rewrite Z.eqb_eq.
  split.
  - intros [(m & (Hm & Hb) & Hr) Hin]. split; [done|]. by exists m.
  - intros [Hin (m & Hm & Hr & Hb)]. split; [|done]. by exists m.
Qed.

(** X23. renderPlayoffs offers a button for each of the rounds 1, 2, 3,
    4, 5 and the grand final (0), in this order, that has a match in the
    current bracket, and shows the matches of the first of them, which
    are at least one; without such a round it writes that the bracket
    has no matches.  For a missing or empty list it writes that there
    are no playoff matches and leaves the buttons as they were. *)
Theorem playoff_rounds (highlightForeign : bool) (currentBracket : string)
    (playoffData : list round_match) :
  renderPlayoffs highlightForeign currentBracket None = (None, NoMatchesFound)
  ∧ (playoffData = [] →
     renderPlayoffs highlightForeign currentBracket (Some playoffData)
     = (None, NoMatchesFound))
  ∧ (playoffData ≠ [] →
     ∃ buttons view,
       renderPlayoffs highlightForeign currentBracket (Some playoffData)
       = (Some buttons, view)
       ∧ buttons.*1 `sublist_of` roundOrder
       ∧ (∀ r, r ∈ buttons.*1 ↔
               r ∈ roundOrder ∧ ∃ m, m ∈ playoffData ∧ in_round currentBracket r m = true)
       ∧ match buttons with
         | [] => view = NoMatchesInBracket
         | (r, label) :: _ =>
             label = roundLabels r
             ∧ round_matches currentBracket r playoffData ≠ []
             ∧ view = Cards (series highlightForeign <$>
                               round_matches currentBracket r playoffData)
         end).
Proof.
  split; [done|]. split; [by intros ->|]. intros Hne.
  destruct playoffData as [|m0 pd]; [done|]. clear Hne.
  unfold renderPlayoffs. cbv beta iota. remember (m0 :: pd) as pd0 eqn:Hpd0. clear Hpd0.
  do 2 eexists. split; [reflexivity|].
  assert (Hfst : ((λ r, (r, roundLabels r)) <$> roundsPresent currentBracket pd0).*1
                 = roundsPresent currentBracket pd0).
  { rewrite <- list_fmap_compose. apply list_fmap_id. }
  rewrite Hfst. split; [apply sublist_filter|]. split; [apply roundsPresent_iff|].
  destruct (roundsPresent currentBracket pd0) as [|r rs] eqn:Hrounds; [done|].
  cbn [fmap list_fmap]. split; [done|].
  assert (Hr : r ∈ roundsPresent currentBracket pd0)
    by (rewrite Hrounds; apply list_elem_of_here).
  apply roundsPresent_iff in Hr as (_ & m & Hm & Hin).
  assert (Hsome : round_matches currentBracket r pd0 ≠ []).
  { intros Hnil.
    assert (Hmem : m ∈ round_matches currentBracket r pd0).
    { unfold round_matches. rewrite AppFacts.sort_by_perm. by apply list_elem_of_filter. }
    rewrite Hnil in Hmem. by apply elem_of_nil in Hmem. }
  split; [done|].
  by apply filterRound_cards.
Qed.

Lemma playoff_rounds_witness :
  ∃ buttons view,
    renderPlayoffs false "all" (Some some_rounds) = (Some buttons, view)
    ∧ buttons.*1 `sublist_of` roundOrder
    ∧ (∀ r, r ∈ buttons.*1 ↔
            r ∈ roundOrder ∧ ∃ m, m ∈ some_rounds ∧ in_round "all" r m = true)
    ∧ match buttons with
      | [] => view = NoMatchesInBracket
      | (r, label) :: _ =>
          label = roundLabels r
          ∧ round_matches "all" r some_rounds ≠ []
          ∧ view = Cards (series false <$> round_matches "all" r some_rounds)
      end.
Proof.
  apply (proj2 (proj2 (playoff_rounds false "all" some_rounds))). discriminate.
Defined.

Example playoff_rounds_sample :
  (renderPlayoffs false "all" (Some some_rounds)).1 = Some [(1, "Round 1"); (2, "Round 2")]
  ∧ (renderPlayoffs false "final" (Some some_rounds)) = (Some [], NoMatchesInBracket).
Proof. split; reflexivity. Qed.

(** ** The match selectors *)

Ltac goto_cases :=
  unfold pbp_bounds, bd_bounds, in_bounds, pbpGoTo, bdGoTo, pbpPrev, pbpNext, bdPrev, bdNext,
    renderPbpMatch, loadBdMatch, set_pbp, set_bd in *;
  repeat match goal with
         | st : nav |- _ => destruct st as [pd pi ps bd bi bs]; cbn in *
         | d : option (list value) |- _ => destruct d; cbn in *
         | |- context [?a <? ?b] => destruct (Z.ltb_spec a b); cbn in *
         | |- context [?a =? ?b] => destruct (Z.eqb_spec a b); cbn in *
         | H : Some _ = Some _ |- _ => inversion H; clear H; subst
         end.

(** X24. Choosing a match in a selector sets the index to the chosen
    number without a check, so the index stays within the bounds exactly
    when the number is within them, and the selector then shows it.
    Within the bounds, next followed by previous, and previous followed
    by next, come back to the index they started from, unless the first
    step was refused at the end of the list. *)
Theorem selector_moves (st : nav) (idx : Z) :
  pbpIndex (pbpGoTo idx st) = idx ∧ bdIndex (bdGoTo idx st) = idx
  ∧ (∀ ms, pbpData st = Some ms → 0 <= idx <= matches_length ms - 1 →
       pbp_bounds (pbpGoTo idx st) ∧ pbp_match_select (pbpGoTo idx st) = idx)
  ∧ (∀ ms, bdData st = Some ms → 0 <= idx <= matches_length ms - 1 →
       bd_bounds (bdGoTo idx st) ∧ bd_match_select (bdGoTo idx st) = idx)
  ∧ (pbp_bounds st →
       (∀ ms, pbpData st = Some ms → pbpIndex st < matches_length ms - 1 →
          pbpIndex (pbpPrev (pbpNext st)) = pbpIndex st)
       ∧ (0 < pbpIndex st → pbpIndex (pbpNext (pbpPrev st)) = pbpIndex st))
  ∧ (bd_bounds st →
       (∀ ms, bdData st = Some ms → bdIndex st < matches_length ms - 1 →
          bdIndex (bdPrev (bdNext st)) = bdIndex st)
       ∧ (0 < bdIndex st → bdIndex (bdNext (bdPrev st)) = bdIndex st)).
Proof.
  split; [by goto_cases|]. split; [by goto_cases|].
  split; [intros ms Hms Hidx; goto_cases; try discriminate; split; try done; lia|].
  split; [intros ms Hms Hidx; goto_cases; try discriminate; split; try done; lia|].
  split; intros Hb; (split; [intros ms Hms Hlt|intros Hgt]); goto_cases;
    try discriminate; try done; lia.
Qed.

Lemma selector_moves_witness :
  (pbp_bounds (pbpGoTo 2 at_first) ∧ pbp_match_select (pbpGoTo 2 at_first) = 2)
  ∧ pbpIndex (pbpPrev (pbpNext at_first)) = pbpIndex at_first
  ∧ bdIndex (bdNext (bdPrev at_first)) = bdIndex at_first.
Proof.
  assert (Hlen : matches_length three_matches = 3) by reflexivity.
  assert (Hp : pbp_bounds at_first)
    by (unfold pbp_bounds, in_bounds, at_first; cbn; rewrite Hlen; lia).
  assert (Hb : bd_bounds at_first)
    by (unfold bd_bounds, in_bounds, at_first; cbn; rewrite Hlen; lia).
  destruct (selector_moves at_first 2) as (_ & _ & Hgo & _ & Hpbp & Hbd).
  split; [|split].
  - apply (Hgo three_matches); [reflexivity|]. rewrite Hlen. lia.
  - apply (proj1 (Hpbp Hp) three_matches); [reflexivity|]. rewrite Hlen. cbn. lia.
  - apply (proj2 (Hbd Hb)). cbn. lia.
Defined.

Example selector_out_of_range :
  pbpIndex (pbpGoTo 7 at_first) = 7 ∧ ¬ pbp_bounds (pbpGoTo 7 at_first).
Proof.
  split; [reflexivity|]. vm_compute. intros [_ H]. by apply H.
Qed.

(** ** What a match card and a bracket slot show *)

Lemma decided_class (upcoming decided : bool) :
  has_class "bkt-decided"
    ("bkt-slot " +:+ (if upcoming then "bkt-upcoming" else "") +:+ " "
       +:+ (if decided then "bkt-decided" else "")) = decided
  ∧ has_class "bkt-upcoming"
      ("bkt-slot " +:+ (if upcoming then "bkt-upcoming" else "") +:+ " "
         +:+ (if decided then "bkt-decided" else "")) = upcoming.
Proof. by destruct upcoming, decided. Qed.

Lemma upcoming_class (upcoming : bool) :
  has_class "upcoming" ("match-card " +:+ (if upcoming then "upcoming" else "")) = upcoming.
Proof. by destruct upcoming. Qed.

Lemma imap_badge_team {A} (f : nat → Z → A) (g : A → Z) (l : list Z) :
  (∀ i n, g (f i n) = n) → g <$> imap f l = l.
Proof.
  intros Hg. revert f Hg. induction l as [|x l IH]; intros f Hg; [done|].
  cbn. rewrite Hg. f_equal. apply IH. intros i n. apply Hg.
Qed.

(** X25. A match card and a bracket slot never mark both alliances as
    the winner.  The card is marked upcoming, and the slot is marked
    upcoming with dashes for both scores, exactly when both scores are
    negative; an alliance of a card shows its own score when it is not
    negative and a dash otherwise; the slot is marked decided exactly
    when winning_alliance names red or blue; and the card has one badge
    for each team number of the alliance, in order. *)
Theorem card_and_slot_marks (highlightForeign : bool) (teamsData : option (list team))
    (m : playoff_match) (label desc : string) :
  let card := renderMatchCard highlightForeign m in
  let both_negative := (score (red m) <? 0) && (score (blue m) <? 0) in
  ¬ (has_class "winner" (al_class (card_red card)) = true
     ∧ has_class "winner" (al_class (card_blue card)) = true)
  ∧ has_class "upcoming" (card_class card) = both_negative
  ∧ (∀ c, al_score (renderAlliance highlightForeign c m)
          = if 0 <=? score (side c m) then pretty (score (side c m)) else "–")
  ∧ (∀ c, badge_team <$> al_badges (renderAlliance highlightForeign c m)
          = team_numbers (side c m))
  ∧ ∃ cls replay red_row blue_row,
      match_view teamsData m label desc = SlotMatch cls label replay red_row blue_row desc
      ∧ ¬ (has_class "bkt-won" (row_class red_row) = true
           ∧ has_class "bkt-won" (row_class blue_row) = true)
      ∧ (has_class "bkt-decided" cls = true
         ↔ winning_alliance m = "red" ∨ winning_alliance m = "blue")
      ∧ has_class "bkt-upcoming" cls = both_negative
      ∧ (both_negative = true → row_score red_row = "–" ∧ row_score blue_row = "–")
      ∧ (both_negative = false →
         row_score red_row = pretty (score (red m))
         ∧ row_score blue_row = pretty (score (blue m)))
      ∧ (replay = if 1 <? match_number m then Some (match_number m) else None)
      ∧ span_team <$> row_teams red_row = team_numbers (red m)
      ∧ span_team <$> row_teams blue_row = team_numbers (blue m).
Proof.
  cbn zeta. split; [|split; [|split; [|split]]].
  - unfold renderMatchCard, renderAlliance. cbn [card_red card_blue al_class].
    rewrite !AppFacts.winner_class. rewrite !String.eqb_eq. cbn.
    intros [-> ?]. done.
  - unfold renderMatchCard. cbn [card_class]. apply upcoming_class.
  - by intros c.
  - intros c. unfold renderAlliance. cbn [al_badges].
    apply imap_badge_team. intros i n. by case_match.
  - unfold match_view. do 4 eexists. split; [reflexivity|].
    cbn [row_class row_score row_teams].
    rewrite !AppFacts.won_class by auto.
    destruct (decided_class ((score (red m) <? 0) && (score (blue m) <? 0))
                (String.eqb (winning_alliance m) "red"
                 || String.eqb (winning_alliance m) "blue")) as [-> ->].
    rewrite orb_true_iff, !String.eqb_eq.
    split; [intros [-> ?]; done|]. split; [done|]. split; [done|].
    split; [by intros ->|]. split; [by intros ->|]. split; [done|].
    rewrite <- !list_fmap_compose. split; apply list_fmap_id.
Qed.

Example card_marks_sample :
  card_class (renderMatchCard false upset) = "match-card "
  ∧ al_score (card_red (renderMatchCard false upset)) = "10"
  ∧ al_badges (card_blue (renderMatchCard true (Match "final" 1 3 ""
        (Alliance [9020] ["Team 9020"] ["Türkiye"] (-1) 1 "1.0")
        (Alliance [254; 118] ["The Cheesy Poofs"] ["USA"; ""] (-1) 8 "2.0"))))
    = [ Badge "team-badge blue-badge foreign-team has-tooltip" "USA" 254
              (Some "The Cheesy Poofs");
        Badge "team-badge blue-badge " "" 118 None ].
Proof. repeat split; reflexivity. Qed.

(** ** The nickname tooltips of the bracket *)

(** The teams that can give team [n] its nickname. *)
Lemma nick_map_last (ts : list team) (n : Z) :
  nick_map (Some ts) !! n
  = nickname <$> last (filter (λ t, team_number t = n ∧ nickname t ≠ "") ts).
Proof.
  unfold nick_map. induction ts as [|t ts IH] using rev_ind; [done|].
  rewrite fold_left_app, filter_app. cbn [fold_left].
  destruct (String.eqb_spec (nickname t) "") as [Hnick|Hnick]; cbn [negb].
  - rewrite IH. rewrite filter_cons, decide_False by tauto.
    by rewrite filter_nil, app_nil_r.
  - destruct (decide (team_number t = n)) as [Hn|Hn].
    + rewrite Hn, lookup_insert_eq. rewrite filter_cons, decide_True by done.
      by rewrite filter_nil, last_snoc.
    + rewrite lookup_insert_ne by done. rewrite IH.
      rewrite filter_cons, decide_False by tauto. by rewrite filter_nil, app_nil_r.
Qed.

Lemma same_number_same_team (ts : list team) (t t' : team) :
  NoDup (team_number <$> ts) → t ∈ ts → t' ∈ ts →
  team_number t' = team_number t → t' = t.
Proof.
  induction ts as [|x ts IH]; [by intros _ ?%elem_of_nil|].
  rewrite fmap_cons, NoDup_cons. intros [Hx Hnd] Ht Ht' Hnum.
  apply elem_of_cons in Ht as [->|Ht]; apply elem_of_cons in Ht' as [->|Ht'].
  - done.
  - exfalso. apply Hx. rewrite <- Hnum. by apply list_elem_of_fmap_2.
  - exfalso. apply Hx. rewrite Hnum. by apply list_elem_of_fmap_2.
  - by apply IH.
Qed.

(** X26. A team of the bracket gets a nickname tooltip exactly when the
    loaded teams list has a team of that number with a nickname, and the
    tooltip is then the nickname of the last such team; with team
    numbers that are all different it is the nickname of that team.
    Without a teams list no team gets one. *)
Theorem tooltip_is_the_nickname (ts : list team) (n : Z) :
  span_tooltip (teamSpan (nick_map None) n) = None
  ∧ span_tooltip (teamSpan (nick_map (Some ts)) n)
    = nickname <$> last (filter (λ t, team_number t = n ∧ nickname t ≠ "") ts)
  ∧ (is_Some (span_tooltip (teamSpan (nick_map (Some ts)) n))
     ↔ ∃ t, t ∈ ts ∧ team_number t = n ∧ nickname t ≠ "")
  ∧ (NoDup (team_number <$> ts) →
     ∀ t, t ∈ ts → nickname t ≠ "" →
          span_tooltip (teamSpan (nick_map (Some ts)) (team_number t)) = Some (nickname t)).
Proof.
  unfold teamSpan. cbn [span_tooltip]. split; [done|].
  split; [apply nick_map_last|]. split.
  - rewrite nick_map_last, fmap_is_Some. split.
    + intros [t Ht]. exists t. apply last_Some_elem_of, list_elem_of_filter in Ht. tauto.
    + intros (t & Ht & Hn & Hnick).
      destruct (last (filter (λ t, team_number t = n ∧ nickname t ≠ "") ts)) eqn:Hlast;
        [by eexists|].
      apply last_None in Hlast.
      assert (Hin : t ∈ filter (λ t, team_number t = n ∧ nickname t ≠ "") ts)
        by (by apply list_elem_of_filter).
      rewrite Hlast in Hin. by apply elem_of_nil in Hin.
  - intros Hnd t Ht Hnick. rewrite nick_map_last.
    destruct (last (filter (λ t', team_number t' = team_number t ∧ nickname t' ≠ "") ts))
      as [t'|] eqn:Hlast.
    + apply last_Some_elem_of, list_elem_of_filter in Hlast as [[Hnum _] Hin'].
      cbn. f_equal. f_equal. by apply (same_number_same_team ts).
    + apply last_None in Hlast.
      assert (Hin : t ∈ filter (λ t', team_number t' = team_number t ∧ nickname t' ≠ "") ts)
        by (by apply list_elem_of_filter).
      rewrite Hlast in Hin. by apply elem_of_nil in Hin.
Qed.

Lemma tooltip_is_the_nickname_witness :
  NoDup (team_number <$> sample_teams)
  ∧ ∀ t, t ∈ sample_teams → nickname t ≠ "" →
         span_tooltip (teamSpan (nick_map (Some sample_teams)) (team_number t))
         = Some (nickname t).
Proof.
  split; [compute_done|].
  apply (tooltip_is_the_nickname sample_teams 0). compute_done.
Defined.

End ControllerFacts.
